(** * Spindle: genre normalization and playlist filter composition

    A shallow embedding of [analysis/genre_normalize.py] and of
    [build_playlist_query] from [db/queries.py], with the properties the
    specification states about them.

    Python strings are sequences of Unicode code points: [str] is [list N].
    The operations of the Python runtime the code calls on strings
    ([str.lower], [unicodedata.normalize], [unicodedata.combining]) are the
    fields of the class [Unicode]; the instance [ucd] gives their values on
    Basic Latin and Latin-1. *)

From Stdlib Require Import Ascii String NArith ZArith.
From stdpp Require Import gmap list strings sorting.
From Equations Require Import Equations.

Open Scope N_scope.

(** ** Python strings *)

Abbreviation str := (list N).

(** An ASCII literal as a Python string. *)
Definition py (s : string) : str :=
  (λ a, Ascii.N_of_ascii a) <$> String.list_ascii_of_string s.

Arguments py : simpl never.

(** [str.isspace] on one character: the code points CPython's
    [_PyUnicode_IsWhitespace] accepts. [str.strip], [str.split] and the
    regular expression class [\s] all use this one predicate. *)
Definition isspace (c : N) : bool :=
  ((9 <=? c) && (c <=? 13)) || ((28 <=? c) && (c <=? 32))
  || (c =? 133) || (c =? 160) || (c =? 5760)
  || ((8192 <=? c) && (c <=? 8202))
  || (c =? 8232) || (c =? 8233) || (c =? 8239) || (c =? 8287) || (c =? 12288).

(** Truthiness of a string or a list: non-empty. *)
Definition truthy {A} (l : list A) : bool :=
  match l with [] => false | _ :: _ => true end.

Fixpoint lstrip (s : str) : str :=
  match s with
  | [] => []
  | c :: s' => if isspace c then lstrip s' else s
  end.

Fixpoint rstrip (s : str) : str :=
  match s with
  | [] => []
  | c :: s' =>
      match rstrip s' with
      | [] => if isspace c then [] else [c]
      | r => c :: r
      end
  end.

(** [s.strip()] *)
Definition strip (s : str) : str := rstrip (lstrip s).

(** Does [s] start with whitespace (or is it empty)? *)
Definition at_break (s : str) : bool :=
  match s with [] => true | c :: _ => isspace c end.

(** [s.split()]: the maximal runs of non-whitespace characters. *)
Fixpoint split (s : str) : list str :=
  match s with
  | [] => []
  | c :: s' =>
      if isspace c then split s'
      else match split s' with
           | [] => [[c]]
           | w :: ws => if at_break s' then [c] :: w :: ws else (c :: w) :: ws
           end
  end.

(** [sep.join(l)] *)
Fixpoint join (sep : str) (l : list str) : str :=
  match l with
  | [] => []
  | [w] => w
  | w :: l' => w ++ sep ++ join sep l'
  end.

(** [s.replace(old, new)] for one-character [old] and [new]. *)
Definition replace (old new : N) (s : str) : str :=
  (λ c, if c =? old then new else c) <$> s.

(** [re.sub(r"\s+", " ", s)]: every maximal run of whitespace becomes one
    space. [in_run] tells that the previous character was whitespace. *)
Fixpoint re_sub_ws (in_run : bool) (s : str) : str :=
  match s with
  | [] => []
  | c :: s' =>
      if isspace c
      then (if in_run then re_sub_ws true s' else 32 :: re_sub_ws true s')
      else c :: re_sub_ws false s'
  end.

(** ** The runtime's Unicode operations *)

Class Unicode := {
  (** [str.lower] *)
  lower : str → str;
  (** [unicodedata.normalize("NFKD", ·)] *)
  nfkd : str → str;
  (** [unicodedata.combining]: the canonical combining class *)
  combining : N → N;
}.

(** ** analysis/genre_normalize.py *)

Definition HYPHEN_PREFIXES : gset str :=
  list_to_set [
    py "acid"; py "afro"; py "alt"; py "anti"; py "art"; py "avant";
    py "dark"; py "dream"; py "electro"; py "euro"; py "folk"; py "garage";
    py "hard"; py "hyper"; py "indie"; py "jazz"; py "math"; py "neo";
    py "noise"; py "nu"; py "post"; py "power"; py "pre"; py "proto";
    py "psycho"; py "slow"; py "space"; py "speed"; py "stoner"; py "synth";
    py "trip"
  ].

Definition ALIAS_ITEMS : list (str * str) := [
    (py "rnb", py "r&b");
    (py "r and b", py "r&b");
    (py "r n b", py "r&b");
    (py "rhythm and blues", py "r&b");
    (py "rhythmandblues", py "r&b");
    (py "rock n roll", py "rock and roll");
    (py "rock & roll", py "rock and roll");
    (py "rock n' roll", py "rock and roll");
    (py "rock'n'roll", py "rock and roll");
    (py "rocknroll", py "rock and roll");
    (py "rock roll", py "rock and roll");
    (py "hip hop", py "hip-hop");
    (py "hiphop", py "hip-hop");
    (py "hip-hop/rap", py "hip-hop");
    (py "hip hop/rap", py "hip-hop");
    (py "trip hop", py "trip-hop");
    (py "triphop", py "trip-hop");
    (py "lo fi", py "lo-fi");
    (py "lofi", py "lo-fi");
    (py "low fi", py "lo-fi");
    (py "low-fi", py "lo-fi");
    (py "electronica", py "electronic");
    (py "drum and bass", py "drum & bass");
    (py "drum n bass", py "drum & bass");
    (py "drum'n'bass", py "drum & bass");
    (py "drumnbass", py "drum & bass");
    (py "dnb", py "drum & bass");
    (py "d&b", py "drum & bass");
    (py "d and b", py "drum & bass");
    (py "shoe gaze", py "shoegaze");
    (py "shoe-gaze", py "shoegaze");
    (py "synth pop", py "synth-pop");
    (py "synthpop", py "synth-pop");
    (py "post punk", py "post-punk");
    (py "postpunk", py "post-punk");
    (py "post rock", py "post-rock");
    (py "postrock", py "post-rock");
    (py "newwave", py "new wave");
    (py "new-wave", py "new wave");
    (py "pop punk", py "pop-punk");
    (py "poppunk", py "pop-punk");
    (py "dream pop", py "dream-pop");
    (py "dreampop", py "dream-pop");
    (py "brit pop", py "britpop");
    (py "brit-pop", py "britpop");
    (py "math rock", py "math-rock");
    (py "mathrock", py "math-rock");
    (py "noise rock", py "noise-rock");
    (py "noiserock", py "noise-rock");
    (py "space rock", py "space-rock");
    (py "spacerock", py "space-rock");
    (py "stoner rock", py "stoner-rock");
    (py "stonerrock", py "stoner-rock");
    (py "nu metal", py "nu-metal");
    (py "numetal", py "nu-metal");
    (py "nu-metal", py "nu-metal");
    ((py "n" ++ [252] ++ py " metal"), py "nu-metal");
    ((py "n" ++ [252] ++ py "-metal"), py "nu-metal");
    (py "art rock", py "art-rock");
    (py "artrock", py "art-rock");
    (py "indie rock", py "indie-rock");
    (py "indierock", py "indie-rock");
    (py "indie pop", py "indie-pop");
    (py "indiepop", py "indie-pop");
    (py "alt country", py "alt-country");
    (py "altcountry", py "alt-country");
    (py "alternative country", py "alt-country");
    (py "power pop", py "power-pop");
    (py "powerpop", py "power-pop");
    (py "garage rock", py "garage-rock");
    (py "garagerock", py "garage-rock");
    (py "hard rock", py "hard-rock");
    (py "hardrock", py "hard-rock");
    (py "acid house", py "acid-house");
    (py "acidhouse", py "acid-house");
    (py "acid jazz", py "acid-jazz");
    (py "acidjazz", py "acid-jazz");
    (py "electro house", py "electro-house");
    (py "electrohouse", py "electro-house");
    (py "dark wave", py "darkwave");
    (py "dark-wave", py "darkwave");
    (py "cold wave", py "coldwave");
    (py "cold-wave", py "coldwave");
    (py "slow core", py "slowcore");
    (py "slow-core", py "slowcore");
    (py "speed metal", py "speed-metal");
    (py "speedmetal", py "speed-metal");
    (py "power metal", py "power-metal");
    (py "powermetal", py "power-metal");
    (py "thrash metal", py "thrash-metal");
    (py "thrashmetal", py "thrash-metal");
    (py "death metal", py "death-metal");
    (py "deathmetal", py "death-metal");
    (py "black metal", py "black-metal");
    (py "blackmetal", py "black-metal");
    (py "doom metal", py "doom-metal");
    (py "doommetal", py "doom-metal");
    (py "heavy metal", py "heavy-metal");
    (py "heavymetal", py "heavy-metal");
    (py "folk rock", py "folk-rock");
    (py "folkrock", py "folk-rock");
    (py "folk punk", py "folk-punk");
    (py "folkpunk", py "folk-punk");
    (py "psychedelic rock", py "psychedelic-rock");
    (py "psychedelicrock", py "psychedelic-rock");
    (py "progressive rock", py "progressive-rock");
    (py "progressiverock", py "progressive-rock");
    (py "prog rock", py "progressive-rock");
    (py "prog-rock", py "progressive-rock");
    (py "progrock", py "progressive-rock");
    (py "progressive metal", py "progressive-metal");
    (py "progressivemetal", py "progressive-metal");
    (py "prog metal", py "progressive-metal");
    (py "prog-metal", py "progressive-metal");
    (py "progmetal", py "progressive-metal");
    (py "00s", py "2000s");
    (py "10s", py "2010s");
    (py "20s", py "2020s");
    (py "the 80s", py "80s");
    (py "the 90s", py "90s");
    (py "the 70s", py "70s");
    (py "the 60s", py "60s");
    (py "uk", py "british");
    (py "singer songwriter", py "singer-songwriter");
    (py "singersongwriter", py "singer-songwriter")

  ].

Definition ALIAS_MAP : gmap str str := list_to_map ALIAS_ITEMS.

Arguments HYPHEN_PREFIXES : simpl never.
Arguments ALIAS_ITEMS : simpl never.
Arguments ALIAS_MAP : simpl never.

(** The [while] loop of [_apply_hyphen_rules]: [i] is the index, [result]
    the list built so far; the loop ends when [i] reaches [len(words)].
    [None] stands for the [IndexError] that [words[i]] raises out of range. *)
Equations hyphen_loop (words : list str) (i : nat) (result : list str)
  : option (list str) by wf (length words - i)%nat lt :=
hyphen_loop words i result with decide (i < length words)%nat := {
  | left _ =>
      match words !! i with
      | None => None
      | Some word =>
          if bool_decide (i + 1 < length words)%nat
             && bool_decide (word ∈ HYPHEN_PREFIXES)
          then match words !! (i + 1)%nat with
               | None => None
               | Some next =>
                   hyphen_loop words (i + 2)
                     (result ++ [word ++ py "-" ++ next])
               end
          else hyphen_loop words (i + 1) (result ++ [word])
      end
  | right _ => Some result }.
Next Obligation. lia. Qed.
Next Obligation. lia. Qed.

Definition _apply_hyphen_rules (text : str) : option str :=
  let words := split text in
  if bool_decide (length words < 2)%nat then Some text
  else
    result ← hyphen_loop words 0 [];
    Some (join (py " ") result).

Section normalizer.
Context `{U : Unicode}.

Definition _normalize_unicode (text : str) : str :=
  let text := replace 8217 39 (replace 8216 39 text) in
  let text := replace 8221 34 (replace 8220 34 text) in
  let normalized := nfkd text in
  filter (λ c, combining c = 0) normalized.

Definition _normalize_separators (text : str) : str :=
  let text := re_sub_ws false text in
  text.

(** [None] only if a step raises. *)
Definition normalize_genre (raw : str) : option str :=
  if negb (truthy raw) || negb (truthy (strip raw)) then Some []
  else
    let text := lower (strip raw) in
    let text := _normalize_unicode text in
    let text := _normalize_separators text in
    match ALIAS_MAP !! text with
    | Some canonical => Some canonical
    | None =>
        text ← _apply_hyphen_rules text;
        match ALIAS_MAP !! text with
        | Some canonical => Some canonical
        | None => Some text
        end
    end.

(** One pass of the loop of [find_duplicate_clusters] over the dictionary
    [canonical_to_raws]. *)
Definition cluster_step (canonical_to_raws : gmap str (list str))
    (raw : str) : option (gmap str (list str)) :=
  canonical ← normalize_genre raw;
  if negb (truthy canonical) then Some canonical_to_raws
  else
    let canonical_to_raws :=
      match canonical_to_raws !! canonical with
      | None => <[canonical := []]> canonical_to_raws
      | Some _ => canonical_to_raws
      end in
    Some (alter (λ variants, variants ++ [raw]) canonical canonical_to_raws).

Fixpoint cluster_loop (canonical_to_raws : gmap str (list str))
    (raw_genres : list str) : option (gmap str (list str)) :=
  match raw_genres with
  | [] => Some canonical_to_raws
  | raw :: rest =>
      canonical_to_raws ← cluster_step canonical_to_raws raw;
      cluster_loop canonical_to_raws rest
  end.
End normalizer.



(** Python's order on strings: lexicographic on code points. *)
Fixpoint str_leb (s t : str) : bool :=
  match s, t with
  | [], _ => true
  | _ :: _, [] => false
  | c :: s', d :: t' => (c <? d) || ((c =? d) && str_leb s' t')
  end.

(** The order [sorted] uses on the items of a dictionary: tuples compare by
    their first components, and the keys of a dictionary are distinct, so the
    second components are never looked at. *)
Definition item_le {V} (x y : str * V) : Prop := str_leb x.1 y.1 = true.

Instance item_le_dec {V} (x y : str * V) : Decision (item_le x y).
Proof. unfold item_le. apply _. Defined.

(** [sorted(d.items())] *)
Definition sorted_items {V} (d : gmap str V) : list (str * V) :=
  merge_sort item_le (map_to_list d).

(** The result dictionary is given by its items in insertion order. *)
Definition find_duplicate_clusters `{U : Unicode} (raw_genres : list str)
  : option (list (str * list str)) :=
  canonical_to_raws ← cluster_loop ∅ raw_genres;
  Some (filter (λ item, 2 ≤ length item.2)%nat (sorted_items canonical_to_raws)).

(** ** The Unicode Character Database on Latin-1

    [ucd] gives [str.lower], NFKD and the combining class for the code points
    U+0000..U+00FF and for the marks their decompositions produce; other code
    points are outside its domain and left as they are. NFKD's canonical
    reordering only permutes characters of non-zero combining class, which
    [_normalize_unicode] drops right after, so it is left out. *)

Definition lower_char (c : N) : N :=
  if ((65 <=? c) && (c <=? 90))
     || ((192 <=? c) && (c <=? 222) && negb (c =? 215))
  then c + 32 else c.

(** The base letter and the mark of the precomposed letters of Latin-1. *)
Definition decomp (c : N) : list N :=
  match c with
  | 160 => [32] | 168 => [32; 776] | 170 => [97] | 175 => [32; 772]
  | 178 => [50] | 179 => [51] | 180 => [32; 769] | 181 => [956]
  | 184 => [32; 807] | 185 => [49] | 186 => [111]
  | 188 => [49; 8260; 52] | 189 => [49; 8260; 50] | 190 => [51; 8260; 52]
  | 192 => [65; 768] | 193 => [65; 769] | 194 => [65; 770] | 195 => [65; 771]
  | 196 => [65; 776] | 197 => [65; 778] | 199 => [67; 807]
  | 200 => [69; 768] | 201 => [69; 769] | 202 => [69; 770] | 203 => [69; 776]
  | 204 => [73; 768] | 205 => [73; 769] | 206 => [73; 770] | 207 => [73; 776]
  | 209 => [78; 771]
  | 210 => [79; 768] | 211 => [79; 769] | 212 => [79; 770] | 213 => [79; 771]
  | 214 => [79; 776]
  | 217 => [85; 768] | 218 => [85; 769] | 219 => [85; 770] | 220 => [85; 776]
  | 221 => [89; 769]
  | 224 => [97; 768] | 225 => [97; 769] | 226 => [97; 770] | 227 => [97; 771]
  | 228 => [97; 776] | 229 => [97; 778] | 231 => [99; 807]
  | 232 => [101; 768] | 233 => [101; 769] | 234 => [101; 770]
  | 235 => [101; 776]
  | 236 => [105; 768] | 237 => [105; 769] | 238 => [105; 770]
  | 239 => [105; 776]
  | 241 => [110; 771]
  | 242 => [111; 768] | 243 => [111; 769] | 244 => [111; 770]
  | 245 => [111; 771] | 246 => [111; 776]
  | 249 => [117; 768] | 250 => [117; 769] | 251 => [117; 770]
  | 252 => [117; 776]
  | 253 => [121; 769] | 255 => [121; 776]
  | _ => [c]
  end.

Definition ccc (c : N) : N :=
  if ((768 <=? c) && (c <=? 772)) || (c =? 776) || (c =? 778) then 230
  else if c =? 807 then 202
  else 0.

Instance ucd : Unicode := {|
  lower s := lower_char <$> s;
  nfkd s := s ≫= decomp;
  combining := ccc;
|}.


(** ** db/queries.py *)

Open Scope Z_scope.

(** The storage collaborator: the rows each SELECT returns, as a function of
    the query's arguments. Track identifiers ([plex_id]) are integers. *)
Record Database := {
  select_by_title : str → list Z;
  select_by_genre : str → list Z;
  select_by_bpm_range : Z → Z → list Z;
  select_by_artists : list str → list Z;
  select_by_similar_artists : str → list Z;
  select_by_genre_groups : list str → list Z;
}.

Definition get_tracks_by_title (db : Database) (title : str) : list Z :=
  select_by_title db title.

Definition get_tracks_by_bpm_range (db : Database) (min_bpm max_bpm : Z)
  : list Z :=
  select_by_bpm_range db min_bpm max_bpm.

Definition get_tracks_by_genre (db : Database) (genre : str) : list Z :=
  select_by_genre db genre.

Definition get_tracks_by_genres (db : Database) (genres : list str) : list Z :=
  if negb (truthy genres) then []
  else
    let results : gset Z :=
      foldl (λ results genre, results ∪ list_to_set (get_tracks_by_genre db genre))
        ∅ genres in
    elements results.

Definition get_tracks_by_artists (db : Database) (artist_names : list str)
  : list Z :=
  if negb (truthy artist_names) then []
  else select_by_artists db artist_names.

Definition get_tracks_by_similar_artists (db : Database) (artist_name : str)
  : list Z :=
  select_by_similar_artists db artist_name.

Definition get_tracks_by_genre_groups (db : Database) (group_names : list str)
  : list Z :=
  if negb (truthy group_names) then []
  else select_by_genre_groups db group_names.

(** [l[:stop]], also for a negative [stop]. *)
Definition slice_to {A} (stop : Z) (l : list A) : list A :=
  if 0 <=? stop then take (Z.to_nat stop) l
  else take (length l - Z.to_nat (- stop)) l.

(** Truthiness of an optional string or list: neither [None] nor empty. *)
Definition given {A} (x : option (list A)) : bool :=
  match x with Some (_ :: _) => true | _ => false end.

(** Truthiness of an optional integer: neither [None] nor 0. *)
Definition given_int (x : option Z) : bool :=
  match x with Some n => negb (n =? 0) | None => false end.

(** The value of an optional argument that is known to be given. *)
Definition the {A} (x : option (list A)) : list A := default [] x.

Section playlist.
(** [random.shuffle]: the order it leaves the list in. *)
Variable random_shuffle : list Z → list Z.

(** Lines 539-570 of [build_playlist_query]: the filters composed into
    [result_set]; [None] when nothing constrained it. *)
Definition compose_filters (db : Database)
    (title : option str) (genres genre_groups : option (list str))
    (bpm_range : option (Z * Z)) (artists : option (list str))
    (similar_to : option str) : option (gset Z) :=
  let result_set : option (gset Z) := None in
  let result_set :=
    if given title then
      let title_ids : gset Z := list_to_set (get_tracks_by_title db (the title)) in
      Some (match result_set with None => title_ids | Some r => r ∩ title_ids end)
    else result_set in
  let genre_pool : option (gset Z) := None in
  let genre_pool :=
    if given genres then Some (list_to_set (get_tracks_by_genres db (the genres)))
    else genre_pool in
  let genre_pool :=
    if given genre_groups then
      let group_ids : gset Z :=
        list_to_set (get_tracks_by_genre_groups db (the genre_groups)) in
      Some (match genre_pool with None => group_ids | Some g => g ∪ group_ids end)
    else genre_pool in
  let result_set :=
    match genre_pool with
    | Some genre_pool =>
        Some (match result_set with None => genre_pool | Some r => r ∩ genre_pool end)
    | None => result_set
    end in
  let result_set :=
    match bpm_range with
    | Some (min_bpm, max_bpm) =>
        let bpm_ids : gset Z :=
          list_to_set (get_tracks_by_bpm_range db min_bpm max_bpm) in
        Some (match result_set with None => bpm_ids | Some r => r ∩ bpm_ids end)
    | None => result_set
    end in
  let artist_pool : option (gset Z) := None in
  let artist_pool :=
    if given artists then Some (list_to_set (get_tracks_by_artists db (the artists)))
    else artist_pool in
  let artist_pool :=
    if given similar_to then
      let similar_ids : gset Z :=
        list_to_set (get_tracks_by_similar_artists db (the similar_to)) in
      Some (match artist_pool with None => similar_ids | Some a => a ∪ similar_ids end)
    else artist_pool in
  let result_set :=
    match artist_pool with
    | Some artist_pool =>
        Some (match result_set with None => artist_pool | Some r => r ∩ artist_pool end)
    | None => result_set
    end in
  result_set.

(** [list(result_set)] is [elements]: the order in which a set is listed
    is not specified, and no statement below depends on it. *)
Definition build_playlist_query (db : Database)
    (title : option str) (genres genre_groups : option (list str))
    (bpm_range : option (Z * Z)) (artists : option (list str))
    (similar_to : option str) (limit : option Z) (shuffle : bool) : list Z :=
  match compose_filters db title genres genre_groups bpm_range artists similar_to with
  | None => []
  | Some result_set =>
      let result_list := elements result_set in
      let result_list := if shuffle then random_shuffle result_list else result_list in
      let result_list :=
        if given_int limit then slice_to (default 0 limit) result_list
        else result_list in
      result_list
  end.
End playlist.

Close Scope Z_scope.

(** ** The hyphenation scan, as the specification words it *)

(** Left to right over the tokens: a token of the prefix set that has a
    successor is joined to it with a hyphen and both are passed; any other
    token is emitted as it is. *)
Fixpoint hyphen_scan (words : list str) : list str :=
  match words with
  | [] => []
  | word :: rest =>
      match rest with
      | next :: rest' =>
          if bool_decide (word ∈ HYPHEN_PREFIXES)
          then (word ++ py "-" ++ next) :: hyphen_scan rest'
          else word :: hyphen_scan rest
      | [] => [word]
      end
  end.

(** The same scan with the test the specification states, on the token's
    lowercase form. *)
Fixpoint spec_hyphen_scan `{U : Unicode} (words : list str) : list str :=
  match words with
  | [] => []
  | word :: rest =>
      match rest with
      | next :: rest' =>
          if bool_decide (lower word ∈ HYPHEN_PREFIXES)
          then (word ++ py "-" ++ next) :: spec_hyphen_scan rest'
          else word :: spec_hyphen_scan rest
      | [] => [word]
      end
  end.

Definition spec_apply_hyphenation `{U : Unicode} (text : str) : str :=
  let words := split text in
  if bool_decide (length words < 2)%nat then text
  else join (py " ") (spec_hyphen_scan words).

(** ** The canonicalizer: steps 1 to 3 of [normalize_genre] *)

Definition canonicalize `{U : Unicode} (raw : str) : str :=
  _normalize_separators (_normalize_unicode (lower (strip raw))).

(** ** What the runtime guarantees on ASCII *)

Definition ascii (s : str) : Prop := Forall (λ c, c < 128) s.

Definition ascii_lower (c : N) : N :=
  if (65 <=? c) && (c <=? 90) then c + 32 else c.

(** On ASCII strings [str.lower] maps A-Z to a-z, NFKD changes nothing and
    no character is a combining mark. *)
Class AsciiLaws (U : Unicode) : Prop := {
  lower_ascii : ∀ s, ascii s → lower s = ascii_lower <$> s;
  nfkd_ascii : ∀ s, ascii s → nfkd s = s;
  combining_ascii : ∀ c, c < 128 → combining c = 0;
}.

(** Empty or whitespace only. *)
Definition blank (s : str) : Prop := Forall (λ c, isspace c = true) s.

(** A character that [ascii_lower] leaves alone. *)
Definition lowered (c : N) : Prop := c < 128 ∧ ascii_lower c = c.

(** Steps 4 to 6 of [normalize_genre] on a text given by its tokens. *)
Definition alias_or_scan (ws : list str) : str :=
  match ALIAS_MAP !! join (py " ") ws with
  | Some canonical => canonical
  | None =>
      let text := join (py " ") (hyphen_scan ws) in
      match ALIAS_MAP !! text with
      | Some canonical => canonical
      | None => text
      end
  end.

(** The raw strings of a list whose canonical form is [canonical], in the
    order and with the repetitions of the list. *)
Definition variants_of `{U : Unicode} (canonical : str) (raw_genres : list str)
  : list str :=
  filter (λ raw, normalize_genre raw = Some canonical) raw_genres.

(** What one more batch of raw strings adds to the entry of a key of
    [canonical_to_raws]. *)
Definition extend (entry : option (list str)) (more : list str)
  : option (list str) :=
  match entry, more with
  | Some variants, _ => Some (variants ++ more)
  | None, [] => None
  | None, _ => Some more
  end.

(** ** The filter composition, as the specification words it *)

(** The identifiers a lookup yields for an argument that is given; nothing
    for one that is not. *)
Definition lookup_set {A} (arg : option (list A)) (lookup : list A → list Z)
  : gset Z :=
  if given arg then list_to_set (lookup (the arg)) else ∅.

Definition title_set (db : Database) (title : option str) : gset Z :=
  lookup_set title (get_tracks_by_title db).

Definition genre_pool (db : Database) (genres genre_groups : option (list str))
  : gset Z :=
  lookup_set genres (get_tracks_by_genres db)
  ∪ lookup_set genre_groups (get_tracks_by_genre_groups db).

Definition bpm_set (db : Database) (bpm_range : option (Z * Z)) : gset Z :=
  match bpm_range with
  | Some (min_bpm, max_bpm) =>
      list_to_set (get_tracks_by_bpm_range db min_bpm max_bpm)
  | None => ∅
  end.

Definition artist_pool (db : Database) (artists : option (list str))
    (similar_to : option str) : gset Z :=
  lookup_set artists (get_tracks_by_artists db)
  ∪ lookup_set similar_to (get_tracks_by_similar_artists db).

(** The sets of the dimensions that are requested, in the order title,
    genre, bpm, artist. *)
Definition requested_sets (db : Database)
    (title : option str) (genres genre_groups : option (list str))
    (bpm_range : option (Z * Z)) (artists : option (list str))
    (similar_to : option str) : list (gset Z) :=
  (if given title then [title_set db title] else [])
  ++ (if given genres || given genre_groups
      then [genre_pool db genres genre_groups] else [])
  ++ (if bpm_range is Some _ then [bpm_set db bpm_range] else [])
  ++ (if given artists || given similar_to
      then [artist_pool db artists similar_to] else []).

(** The intersection of the sets of a list; empty for the empty list. *)
Definition intersect_all (sets : list (gset Z)) : gset Z :=
  match sets with
  | [] => ∅
  | s :: rest => foldl (∩) s rest
  end.

(** Two collaborators for the examples: one that knows tracks 1 and 2 under
    every query (and lists them with repeats), one that only answers tempo
    queries. *)
Definition db_all : Database := {|
  select_by_title _ := [1; 2; 1]%Z;
  select_by_genre _ := [2; 1; 2]%Z;
  select_by_bpm_range _ _ := [1; 1; 2]%Z;
  select_by_artists _ := [1; 2]%Z;
  select_by_similar_artists _ := [2; 2; 1]%Z;
  select_by_genre_groups _ := [1; 2; 2]%Z;
|}.

Definition db_bpm_only : Database := {|
  select_by_title _ := [];
  select_by_genre _ := [];
  select_by_bpm_range _ _ := [1]%Z;
  select_by_artists _ := [];
  select_by_similar_artists _ := [];
  select_by_genre_groups _ := [];
|}.

(** ** The rest of analysis/genre_normalize.py, db/queries.py and their
    callers *)

(** One pass of the loop of [build_normalization_map] over [mapping]. *)
Definition normalization_step `{U : Unicode} (mapping : gmap str str)
    (raw : str) : option (gmap str str) :=
  canonical ← normalize_genre raw;
  if truthy canonical then Some (<[raw := canonical]> mapping)
  else Some mapping.

Fixpoint normalization_loop `{U : Unicode} (mapping : gmap str str)
    (raw_genres : list str) : option (gmap str str) :=
  match raw_genres with
  | [] => Some mapping
  | raw :: rest =>
      mapping ← normalization_step mapping raw;
      normalization_loop mapping rest
  end.

Definition build_normalization_map `{U : Unicode} (raw_genres : list str)
  : option (gmap str str) :=
  normalization_loop ∅ raw_genres.

(** What the accessors of a Flask request return for the filter form:
    [req.values.get(name, "")] for the two text fields, [getlist] for the
    three lists, [get(name, type=int)] for the three numbers. *)
Record Request := {
  values_title : str;
  values_genre_groups : list str;
  values_genres : list str;
  values_artists : list str;
  values_similar_to : str;
  values_min_bpm : option Z;
  values_max_bpm : option Z;
  values_limit : option Z;
}.

(** The keyword arguments [_parse_filters] builds. *)
Record Filters := {
  title : option str;
  genre_groups : option (list str);
  genres : option (list str);
  artists : option (list str);
  similar_to : option str;
  bpm_range : option (Z * Z);
  limit : option Z;
}.

(** [x or None] for a string or a list. *)
Definition or_None {A} (x : list A) : option (list A) :=
  if truthy x then Some x else None.

(** Truthiness of what [get(name, type=int)] returns. *)
Definition truthy_int (x : option Z) : bool :=
  match x with Some n => negb (n =? 0)%Z | None => false end.

Definition _parse_filters (req : Request) : Filters :=
  let title := or_None (strip (values_title req)) in
  let genre_groups := or_None (values_genre_groups req) in
  let genres := or_None (values_genres req) in
  let artists := or_None (values_artists req) in
  let similar_to := or_None (strip (values_similar_to req)) in
  let min_bpm := values_min_bpm req in
  let max_bpm := values_max_bpm req in
  let bpm_range :=
    if truthy_int min_bpm && truthy_int max_bpm
    then Some (default 0%Z min_bpm, default 0%Z max_bpm) else None in
  let limit := if truthy_int (values_limit req) then values_limit req else None in
  {| title := title; genre_groups := genre_groups; genres := genres;
     artists := artists; similar_to := similar_to; bpm_range := bpm_range;
     limit := limit |}.

(** The track identifiers of the route [preview_count] ([shuffle] is set to
    [False] there; the count shown is their number) and of the route
    [preview] ([shuffle] keeps its default [True]). *)
Definition preview_count_ids (random_shuffle : list Z → list Z)
    (db : Database) (req : Request) : list Z :=
  let filters := _parse_filters req in
  build_playlist_query random_shuffle db (title filters) (genres filters)
    (genre_groups filters) (bpm_range filters) (artists filters)
    (similar_to filters) (limit filters) false.

Definition preview_ids (random_shuffle : list Z → list Z)
    (db : Database) (req : Request) : list Z :=
  let filters := _parse_filters req in
  build_playlist_query random_shuffle db (title filters) (genres filters)
    (genre_groups filters) (bpm_range filters) (artists filters)
    (similar_to filters) (limit filters) true.

(** The counters [run_normalization] of scripts/normalize_genres.py
    reports. *)
Record Stats := {
  total_genres : nat;
  canonical_new : nat;
  aliases_created : nat;
  clusters_found : nat;
  identity_mappings : nat;
}.

(** The loop "Count aliases" of the dry run over the items of [norm_map];
    the counters do not depend on the order of the items. *)
Definition count_aliases `{U : Unicode} (stats : Stats)
    (items : list (str * str)) : Stats :=
  foldl (λ stats item,
           if decide (lower item.1 ≠ item.2)
           then {| total_genres := total_genres stats;
                   canonical_new := canonical_new stats;
                   aliases_created := aliases_created stats + 1;
                   clusters_found := clusters_found stats;
                   identity_mappings := identity_mappings stats |}
           else {| total_genres := total_genres stats;
                   canonical_new := canonical_new stats;
                   aliases_created := aliases_created stats;
                   clusters_found := clusters_found stats;
                   identity_mappings := identity_mappings stats + 1 |})
    stats items.

(** [run_normalization(db_path, dry_run=True)], given the rows
    [get_all_genres_with_ids] reads; a dry run writes nothing. *)
Definition run_normalization_dry_run `{U : Unicode}
    (genre_rows : list (Z * str)) : option Stats :=
  let total := length genre_rows in
  if negb (truthy genre_rows)
  then Some {| total_genres := total; canonical_new := 0;
               aliases_created := 0; clusters_found := 0;
               identity_mappings := 0 |}
  else
    let raw_genres := (λ row, row.2) <$> genre_rows in
    norm_map ← build_normalization_map raw_genres;
    clusters ← find_duplicate_clusters raw_genres;
    let existing_genres_lower : gset str := list_to_set (lower <$> raw_genres) in
    let canonical_values : gset str :=
      list_to_set (map_to_list norm_map).*2 in
    let new_canonicals : gset str :=
      filter (λ c, c ∉ existing_genres_lower) canonical_values in
    Some (count_aliases
            {| total_genres := total; canonical_new := size new_canonicals;
               aliases_created := 0; clusters_found := length clusters;
               identity_mappings := 0 |}
            (map_to_list norm_map)).

(** Whitespace in a string only as single ASCII spaces: a whitespace
    character is U+0020 and is not followed by another one. *)
Definition single_spaced (s : str) : Prop :=
  ∀ i c, s !! i = Some c → isspace c = true →
    c = 32 ∧ ∀ d, s !! S i = Some d → isspace d = false.

(** An empty request form, with one tempo bound and a limit left in. *)
Definition blank_request : Request := {|
  values_title := py "  ";
  values_genre_groups := [];
  values_genres := [];
  values_artists := [];
  values_similar_to := [];
  values_min_bpm := Some 90%Z;
  values_max_bpm := None;
  values_limit := Some 10%Z;
|}.

(** A request for one genre, a tempo range and at most one track. *)
Definition rock_request : Request := {|
  values_title := [];
  values_genre_groups := [];
  values_genres := [py "rock"];
  values_artists := [];
  values_similar_to := [];
  values_min_bpm := Some 60%Z;
  values_max_bpm := Some 200%Z;
  values_limit := Some 1%Z;
|}.

(** * Properties *)

(** ** Strings *)

(** A token: non-empty and free of whitespace. *)
Definition word (w : str) : Prop := w ≠ [] ∧ Forall (λ c, isspace c = false) w.

Lemma word_cons c w : isspace c = false → Forall (λ c, isspace c = false) w → word (c :: w).
Proof. intros Hc Hw. split; [done | by constructor]. Qed.

Lemma word_app_hyphen w n : word w → word n → word (w ++ py "-" ++ n).
Proof.
  intros [Hw Fw] [Hn Fn]. split.
  - destruct w; [done | discriminate].
  - rewrite !Forall_app. repeat split; [done | | done].
    by repeat constructor.
Qed.

Lemma split_word s : Forall word (split s).
Proof.
  induction s as [|c s IH]; simpl; [constructor |].
  destruct (isspace c) eqn:Hc; [done |].
  destruct (split s) as [|w ws] eqn:Hs.
  - constructor; [by apply word_cons | constructor].
  - inversion_clear IH as [|? ? Hw Hws].
    destruct (at_break s).
    + constructor; [by apply word_cons | by constructor].
    + constructor; [|done]. destruct Hw. by apply word_cons.
Qed.

Lemma split_word_app w s :
  word w → at_break s = true → split (w ++ s) = w :: split s.
Proof.
  intros [Hne Hw] Hs. induction w as [|c w IH]; [done |].
  inversion_clear Hw as [|? ? Hc Hw']. simpl. rewrite Hc.
  destruct w as [|c' w].
  - simpl. rewrite Hs. by destruct (split s).
  - rewrite IH; [|done|done]. simpl.
    inversion_clear Hw' as [|? ? Hc' _]. by rewrite Hc'.
Qed.

Lemma split_join ws : Forall word ws → split (join (py " ") ws) = ws.
Proof.
  induction 1 as [|w ws Hw Hws IH]; [done |].
  destruct ws as [|w' ws].
  - simpl. rewrite <- (app_nil_r w) at 1. by rewrite split_word_app.
  - change (join (py " ") (w :: w' :: ws))
      with (w ++ 32 :: join (py " ") (w' :: ws)).
    rewrite split_word_app; [|done|done].
    change (split (32 :: ?s)) with (split s). by rewrite IH.
Qed.

Lemma Forall_lstrip (P : N → Prop) s : Forall P s → Forall P (lstrip s).
Proof.
  induction 1 as [|c s Hc Hs IH]; simpl; [constructor |].
  destruct (isspace c); [done | by constructor].
Qed.

Lemma Forall_rstrip (P : N → Prop) s : Forall P s → Forall P (rstrip s).
Proof.
  induction 1 as [|c s Hc Hs IH]; simpl; [constructor |].
  destruct (rstrip s); [|by constructor].
  destruct (isspace c); by repeat constructor.
Qed.

Lemma Forall_strip (P : N → Prop) s : Forall P s → Forall P (strip s).
Proof. intros. by apply Forall_rstrip, Forall_lstrip. Qed.

Lemma rstrip_nil s : rstrip s = [] ↔ blank s.
Proof.
  unfold blank. induction s as [|c s IH]; simpl; [by split; constructor |].
  destruct (rstrip s) eqn:Hr.
  - destruct (isspace c) eqn:Hc.
    + split; [constructor; [done | by apply IH] | done].
    + split; [done | inversion 1; congruence].
  - split; [done |]. inversion 1 as [|? ? _ Hs]. by apply IH in Hs.
Qed.

Lemma blank_lstrip s : blank (lstrip s) ↔ blank s.
Proof.
  unfold blank. induction s as [|c s IH]; simpl; [done |].
  destruct (isspace c) eqn:Hc; [|done].
  rewrite IH. split; [by constructor | by inversion 1].
Qed.

Lemma strip_nil s : strip s = [] ↔ blank s.
Proof. unfold strip. by rewrite rstrip_nil, blank_lstrip. Qed.

Lemma guard_strip (raw : str) :
  negb (truthy raw) || negb (truthy (strip raw)) = negb (truthy (strip raw)).
Proof. by destruct raw. Qed.

Lemma re_sub_ws_nil s : re_sub_ws false s = [] → s = [].
Proof. destruct s as [|c s]; [done |]. simpl. by destruct (isspace c). Qed.

Lemma join_nil sep ws : join sep ws = [] → Forall word ws → ws = [].
Proof.
  destruct ws as [|w ws]; [done |].
  intros Hj Hw. inversion_clear Hw as [|? ? [Hne _] _].
  destruct ws; simpl in Hj; [done |]. by destruct w.
Qed.

Lemma rstrip_rstrip s : rstrip (rstrip s) = rstrip s.
Proof.
  induction s as [|c s IH]; [done |]. simpl.
  destruct (rstrip s) as [|x r] eqn:Hr.
  - destruct (isspace c) eqn:Hc; [done |]. simpl. by rewrite Hc.
  - change (rstrip (c :: x :: r)) with
      (match rstrip (x :: r) with
       | [] => if isspace c then [] else [c]
       | r' => c :: r'
       end).
    by rewrite IH.
Qed.

Lemma rstrip_tail c s : rstrip (c :: s) = c :: s → rstrip s = s.
Proof.
  simpl. destruct (rstrip s) as [|x r] eqn:Hr.
  - destruct (isspace c); [done |]. by intros [= <-].
  - by intros [= <-].
Qed.

Lemma rstrip_app_r a b : rstrip b ≠ [] → rstrip (a ++ b) = a ++ rstrip b.
Proof.
  intros Hb. induction a as [|c a IH]; [done |].
  simpl. rewrite IH. destruct (a ++ rstrip b) eqn:Hab; [|done].
  by apply app_eq_nil in Hab as [_ ?].
Qed.

Lemma rstrip_word w : word w → rstrip w = w.
Proof.
  intros [Hne Hw]. induction Hw as [|c w Hc Hw IH]; [done |].
  simpl. destruct w as [|c' w]; [by rewrite Hc |].
  by rewrite IH.
Qed.

Lemma join_cons_cons sep (w w' : str) ws :
  join sep (w :: w' :: ws) = w ++ sep ++ join sep (w' :: ws).
Proof. done. Qed.

Lemma join_head ws :
  Forall word ws → ws ≠ [] → at_break (join (py " ") ws) = false.
Proof.
  intros Hws Hne. destruct ws as [|w ws]; [done |].
  inversion_clear Hws as [|? ? [Hw Fw] _].
  destruct w as [|c w]; [done |]. inversion_clear Fw as [|? ? Hc _].
  by destruct ws.
Qed.

Lemma join_ne_nil ws : Forall word ws → ws ≠ [] → join (py " ") ws ≠ [].
Proof. intros Hws Hne Hj. by apply join_nil in Hj. Qed.

Lemma rstrip_join ws :
  Forall word ws → rstrip (join (py " ") ws) = join (py " ") ws.
Proof.
  induction 1 as [|w ws Hw Hws IH]; [done |].
  destruct ws as [|w' ws]; [by apply rstrip_word |].
  rewrite join_cons_cons.
  assert (rstrip (join (py " ") (w' :: ws)) ≠ []) as Hne
    by (rewrite IH; by apply join_ne_nil).
  rewrite !rstrip_app_r; [by rewrite IH | done |].
  rewrite rstrip_app_r by done. by destruct (py " ").
Qed.

Lemma lstrip_id s : at_break s = false → lstrip s = s.
Proof. destruct s as [|c s]; [done |]. simpl. by intros ->. Qed.

Lemma lstrip_head s : lstrip s = [] ∨ at_break (lstrip s) = false.
Proof.
  induction s as [|c s IH]; [by left |]. simpl.
  destruct (isspace c) eqn:Hc; [done |]. right. simpl. by rewrite Hc.
Qed.

Lemma at_break_rstrip s : at_break s = false → at_break (rstrip s) = false.
Proof.
  destruct s as [|c s]; [done |]. simpl. intros Hc.
  destruct (rstrip s); [by rewrite Hc | done].
Qed.

Lemma strip_tight raw :
  rstrip (strip raw) = strip raw
  ∧ (strip raw = [] ∨ at_break (strip raw) = false).
Proof.
  unfold strip. split; [apply rstrip_rstrip |].
  destruct (lstrip_head raw) as [-> | H]; [by left |].
  right. by apply at_break_rstrip.
Qed.

Lemma strip_join ws :
  Forall word ws → ws ≠ [] → strip (join (py " ") ws) = join (py " ") ws.
Proof.
  intros Hws Hne. unfold strip.
  rewrite lstrip_id by by apply join_head. by apply rstrip_join.
Qed.

Lemma split_nil s : split s = [] → blank s.
Proof.
  unfold blank. induction s as [|c s IH]; [constructor |]. simpl.
  destruct (isspace c) eqn:Hc; [by constructor; auto |].
  destruct (split s); [done |]. by destruct (at_break s).
Qed.

Lemma Forall_split (P : N → Prop) s : Forall P s → Forall (Forall P) (split s).
Proof.
  induction 1 as [|c s Hc Hs IH]; [constructor |]. simpl.
  destruct (isspace c); [done |].
  destruct (split s) as [|w ws]; [by repeat constructor |].
  inversion_clear IH.
  destruct (at_break s); repeat constructor; done.
Qed.

Lemma split_cons_space c s : isspace c = true → split (c :: s) = split s.
Proof. simpl. by intros ->. Qed.

Lemma split_cons_word c s :
  isspace c = false →
  split (c :: s) =
    match split s with
    | [] => [[c]]
    | w :: ws => if at_break s then [c] :: w :: ws else (c :: w) :: ws
    end.
Proof. simpl. by intros ->. Qed.

Lemma re_sub_ws_cons_word b c s :
  isspace c = false → re_sub_ws b (c :: s) = c :: re_sub_ws false s.
Proof. simpl. by intros ->. Qed.

Lemma re_sub_ws_cons_space c s :
  isspace c = true →
  re_sub_ws true (c :: s) = re_sub_ws true s
  ∧ re_sub_ws false (c :: s) = 32 :: re_sub_ws true s.
Proof. simpl. by intros ->. Qed.

(** Collapsing the whitespace of a string without trailing whitespace gives
    its tokens joined by single spaces. *)
Lemma re_sub_ws_join s :
  rstrip s = s →
  re_sub_ws true s = join (py " ") (split s)
  ∧ (at_break s = false → re_sub_ws false s = join (py " ") (split s)).
Proof.
  induction s as [|c s IH]; [done |].
  intros Hr. pose proof (rstrip_tail _ _ Hr) as Hr'.
  destruct (IH Hr') as [IHt IHf].
  assert (isspace c = false →
    re_sub_ws false (c :: s) = join (py " ") (split (c :: s))) as Hf.
  { intros Hc. rewrite split_cons_word, re_sub_ws_cons_word by done.
    destruct (at_break s) eqn:Hb.
    - destruct s as [|d s]; [done |].
      destruct (re_sub_ws_cons_space d s Hb) as [Ht ->]. rewrite Ht in IHt.
      destruct (split (d :: s)) as [|w ws] eqn:Hsp.
      + apply split_nil in Hsp. apply rstrip_nil in Hsp. congruence.
      + rewrite join_cons_cons, IHt. done.
    - rewrite (IHf eq_refl). destruct (split s) as [|w ws] eqn:Hsp.
      + apply split_nil in Hsp. destruct s; [done |].
        inversion_clear Hsp. simpl in Hb. congruence.
      + by destruct ws. }
  split.
  - destruct (isspace c) eqn:Hc.
    + destruct (re_sub_ws_cons_space c s Hc) as [-> _].
      by rewrite split_cons_space.
    + rewrite <- (Hf eq_refl). by rewrite !re_sub_ws_cons_word.
  - exact Hf.
Qed.

(** ** The scan *)

Lemma hyphen_scan_ind (P : list str → Prop) :
  P [] → (∀ w, P [w]) →
  (∀ w n rest, P rest → P (n :: rest) → P (w :: n :: rest)) →
  ∀ ws, P ws.
Proof.
  intros H0 H1 H2 ws.
  cut (P ws ∧ ∀ w, P (w :: ws)); [by intros [? _] |].
  induction ws as [|n rest [IH1 IH2]]; [by split |].
  split; [apply IH2 |]. intros w. by apply H2.
Qed.

Lemma hyphen_scan_cons w n rest :
  hyphen_scan (w :: n :: rest) =
    if bool_decide (w ∈ HYPHEN_PREFIXES)
    then (w ++ py "-" ++ n) :: hyphen_scan rest
    else w :: hyphen_scan (n :: rest).
Proof. done. Qed.

Lemma hyphen_scan_word ws : Forall word ws → Forall word (hyphen_scan ws).
Proof.
  induction ws as [| w | w n rest IH1 IH2] using hyphen_scan_ind; [done..|].
  intros Hws. inversion_clear Hws as [|? ? Hw Hws'].
  pose proof Hws' as Hws''. inversion_clear Hws' as [|? ? Hn Hrest].
  rewrite hyphen_scan_cons. case_bool_decide.
  - constructor; [by apply word_app_hyphen | by apply IH1].
  - constructor; [done | by apply IH2].
Qed.

Lemma hyphen_scan_nil ws : hyphen_scan ws = [] → ws = [].
Proof.
  destruct ws as [|w [|n rest]]; [done..|].
  rewrite hyphen_scan_cons. by case_bool_decide.
Qed.

(** ** The loop of [_apply_hyphen_rules] computes the scan *)

Lemma hyphen_loop_scan n : ∀ words i result,
  (length words - i ≤ n)%nat → (i ≤ length words)%nat →
  hyphen_loop words i result = Some (result ++ hyphen_scan (drop i words)).
Proof.
  induction n as [|n IH]; intros words i result Hn Hi.
  - assert (i = length words) as -> by lia.
    rewrite drop_all, app_nil_r. simp hyphen_loop.
    destruct (decide _); [lia | done].
  - simp hyphen_loop. destruct (decide (i < length words)%nat) as [Hlt|Hge]; simpl.
    + destruct (lookup_lt_is_Some_2 words i Hlt) as [w Hw]. rewrite Hw.
      rewrite (drop_S _ _ _ Hw).
      destruct (decide (i + 1 < length words)%nat) as [Hlt'|Hge'].
      * destruct (lookup_lt_is_Some_2 words (i + 1) Hlt') as [w' Hw'].
        rewrite bool_decide_eq_true_2 by done. simpl andb.
        replace (S i) with (i + 1)%nat by lia.
        rewrite (drop_S _ _ _ Hw'). simpl hyphen_scan.
        destruct (bool_decide (w ∈ HYPHEN_PREFIXES)).
        -- rewrite Hw'. rewrite IH by lia.
           replace (S (i + 1)) with (i + 2)%nat by lia.
           by rewrite <- app_assoc.
        -- rewrite IH by lia. rewrite (drop_S _ _ _ Hw').
           by rewrite <- app_assoc.
      * rewrite bool_decide_eq_false_2 by done. simpl andb.
        rewrite IH by lia.
        rewrite (drop_ge words (i + 1)), (drop_ge words (S i)) by lia.
        simpl. by rewrite <- app_assoc.
    + assert (i = length words) as -> by lia.
      by rewrite drop_all, app_nil_r.
Qed.

(** C5 (as stated, refuted): on "Post punk" the code leaves the text as it
    is, because [Post] itself is not in the prefix set; the scan that tests
    the lowercase form of the token would give "Post-punk". *)
Lemma apply_hyphen_rules_case_sensitive :
  _apply_hyphen_rules (py "Post punk") = Some (py "Post punk")
  ∧ spec_apply_hyphenation (U := ucd) (py "Post punk") = py "Post-punk".
Proof. split; vm_compute; reflexivity. Qed.

Lemma apply_hyphen_rules_eq (text : str) :
  _apply_hyphen_rules text =
    Some (if bool_decide (length (split text) < 2)%nat then text
          else join (py " ") (hyphen_scan (split text))).
Proof.
  unfold _apply_hyphen_rules. case_bool_decide; [done |].
  rewrite (hyphen_loop_scan (length (split text))) by lia.
  by rewrite drop_0.
Qed.

(** C5 (amended): [_apply_hyphen_rules] never raises; it returns its input
    unchanged when splitting on whitespace yields fewer than 2 tokens;
    otherwise it returns, joined by single spaces, what the left-to-right
    scan emits: when the current token itself, as it stands, is in the
    prefix set and a next token exists, the two joined by a hyphen, the
    scan going on after both; else the current token, the scan going on
    after it. *)
Theorem apply_hyphen_rules_scan (text : str) :
  _apply_hyphen_rules text =
    Some (if bool_decide (length (split text) < 2)%nat then text
          else join (py " ") (hyphen_scan (split text)))
  ∧ (∀ word next rest,
       hyphen_scan (word :: next :: rest) =
         if bool_decide (word ∈ HYPHEN_PREFIXES)
         then (word ++ py "-" ++ next) :: hyphen_scan rest
         else word :: hyphen_scan (next :: rest))
  ∧ (∀ word, hyphen_scan [word] = [word])
  ∧ hyphen_scan [] = [].
Proof. split; [apply apply_hyphen_rules_eq | by repeat split]. Qed.

(** ** The alias table *)

Lemma alias_item k v : ALIAS_MAP !! k = Some v → (k, v) ∈ ALIAS_ITEMS.
Proof. apply elem_of_list_to_map_2. Qed.

(** No key is written twice in the dictionary literal, so the map holds
    every item of the list. *)
Lemma alias_keys_NoDup : NoDup ALIAS_ITEMS.*1.
Proof. apply (bool_decide_unpack _). vm_compute. exact I. Qed.

Lemma alias_items_nonempty :
  Forall (λ item : str * str, item.1 ≠ [] ∧ item.2 ≠ []) ALIAS_ITEMS.
Proof. apply (bool_decide_unpack _). vm_compute. exact I. Qed.

Lemma alias_value_nonempty k v : ALIAS_MAP !! k = Some v → v ≠ [].
Proof.
  intros H%alias_item.
  by destruct (proj1 (Forall_forall _ _) alias_items_nonempty _ H).
Qed.

Lemma alias_key_nonempty : ALIAS_MAP !! ([] : str) = None.
Proof.
  destruct (ALIAS_MAP !! []) as [v|] eqn:H; [|done].
  apply alias_item in H.
  by destruct (proj1 (Forall_forall _ _) alias_items_nonempty _ H).
Qed.

(** ** [ucd] obeys the ASCII laws *)

Lemma lower_char_ascii c : c < 128 → lower_char c = ascii_lower c.
Proof.
  intros Hc. unfold lower_char, ascii_lower.
  destruct (N.leb_spec 192 c); [lia |].
  by rewrite andb_false_l, orb_false_r.
Qed.

Lemma decomp_ascii c : c < 128 → decomp c = [c].
Proof.
  destruct c as [|p]; [done |].
  do 8 (try destruct p as [p|p|]); try reflexivity; lia.
Qed.

Lemma ccc_ascii c : c < 128 → ccc c = 0.
Proof.
  intros Hc. unfold ccc.
  destruct (N.leb_spec 768 c); [lia |].
  destruct (N.eqb_spec c 776); [lia |].
  destruct (N.eqb_spec c 778); [lia |].
  destruct (N.eqb_spec c 807); [lia | done].
Qed.

Lemma bind_decomp_ascii (s : str) : ascii s → s ≫= decomp = s.
Proof.
  induction 1 as [|c s Hc Hs IH]; [done |].
  by rewrite bind_cons, (decomp_ascii c Hc), IH.
Qed.

Instance ucd_ascii_laws : AsciiLaws ucd.
Proof.
  split.
  - intros s Hs. apply Forall_fmap_ext_1.
    eapply Forall_impl; [exact Hs |]. apply lower_char_ascii.
  - apply bind_decomp_ascii.
  - apply ccc_ascii.
Defined.

(** ** The pipeline on ASCII input *)

Lemma ascii_lower_ascii c : c < 128 → ascii_lower c < 128.
Proof.
  intros Hc. unfold ascii_lower.
  destruct (N.leb_spec 65 c); [|done].
  destruct (N.leb_spec c 90); simpl; lia.
Qed.

Lemma replace_id old new (s : str) :
  Forall (λ c, c ≠ old) s → replace old new s = s.
Proof.
  unfold replace. induction 1 as [|c s Hc Hs IH]; [done |].
  rewrite fmap_cons, IH. by destruct (N.eqb_spec c old).
Qed.

Lemma normalize_unicode_ascii `{U : Unicode} {L : AsciiLaws U} (s : str) :
  ascii s → _normalize_unicode s = s.
Proof.
  intros Hs. unfold _normalize_unicode.
  assert (∀ old, 128 ≤ old → Forall (λ c, c ≠ old) s) as Hne
    by (intros old Hold; eapply Forall_impl; [exact Hs | simpl; lia]).
  rewrite (replace_id 8216 39 s), (replace_id 8217 39 s),
    (replace_id 8220 34 s), (replace_id 8221 34 s) by (apply Hne; lia).
  rewrite (nfkd_ascii s Hs). clear Hne.
  induction Hs as [|c s Hc Hs IH]; [done |].
  rewrite filter_cons_True by by apply combining_ascii.
  by rewrite IH.
Qed.

Lemma canonicalize_ascii `{U : Unicode} {L : AsciiLaws U} (raw : str) :
  ascii raw → canonicalize raw = re_sub_ws false (ascii_lower <$> strip raw).
Proof.
  intros Hraw. unfold canonicalize, _normalize_separators.
  assert (ascii (strip raw)) as Hs by by apply Forall_strip.
  rewrite (lower_ascii _ Hs). rewrite normalize_unicode_ascii; [done |].
  apply Forall_fmap. eapply Forall_impl; [exact Hs |]. apply ascii_lower_ascii.
Qed.

Lemma normalize_genre_canonicalize `{U : Unicode} (raw : str) :
  normalize_genre raw =
    if negb (truthy (strip raw)) then Some []
    else match ALIAS_MAP !! canonicalize raw with
         | Some canonical => Some canonical
         | None =>
             text ← _apply_hyphen_rules (canonicalize raw);
             match ALIAS_MAP !! text with
             | Some canonical => Some canonical
             | None => Some text
             end
         end.
Proof. unfold normalize_genre. by rewrite guard_strip. Qed.

(** On ASCII input every runtime that obeys the laws computes what [ucd]
    computes. *)
Lemma normalize_genre_ascii_ucd `{U : Unicode} {L : AsciiLaws U} (raw : str) :
  ascii raw → normalize_genre raw = normalize_genre (U := ucd) raw.
Proof.
  intros Hraw. rewrite !normalize_genre_canonicalize.
  by rewrite !canonicalize_ascii.
Qed.

(** ** Lowercasing keeps the shape of a string *)

Ltac decide_cmp :=
  repeat match goal with
    | |- context [?a <=? ?b] =>
        first [ rewrite (proj2 (N.leb_gt a b)) by lia
              | rewrite (proj2 (N.leb_le a b)) by lia ]
    | |- context [?a =? ?b] => rewrite (proj2 (N.eqb_neq a b)) by lia
    end.

Lemma isspace_ascii_lower c : isspace (ascii_lower c) = isspace c.
Proof.
  unfold ascii_lower.
  destruct (N.leb_spec 65 c); [|done].
  destruct (N.leb_spec c 90); [|done]. simpl.
  unfold isspace. by decide_cmp.
Qed.

Lemma at_break_lower s : at_break (ascii_lower <$> s) = at_break s.
Proof. destruct s; [done |]. apply isspace_ascii_lower. Qed.

Lemma rstrip_lower s : rstrip (ascii_lower <$> s) = ascii_lower <$> rstrip s.
Proof.
  induction s as [|c s IH]; [done |].
  rewrite fmap_cons. simpl. rewrite IH, isspace_ascii_lower.
  destruct (rstrip s); [by destruct (isspace c) | done].
Qed.

Lemma ascii_lower_lowered c : c < 128 → lowered (ascii_lower c).
Proof.
  intros Hc. split; [by apply ascii_lower_ascii |].
  unfold ascii_lower.
  destruct ((65 <=? c) && (c <=? 90)) eqn:E; [|by rewrite E].
  apply andb_prop in E as [E1%N.leb_le E2%N.leb_le].
  rewrite (proj2 (N.leb_gt (c + 32) 90)) by lia. by rewrite andb_false_r.
Qed.

Lemma lowered_fmap s : Forall lowered s → ascii_lower <$> s = s.
Proof.
  induction 1 as [|c s [_ Hc] Hs IH]; [done |]. by rewrite fmap_cons, Hc, IH.
Qed.

Lemma lowered_ascii s : Forall lowered s → ascii s.
Proof. intros H. eapply Forall_impl; [exact H |]. by intros c [? _]. Qed.

Lemma lowered_literal (s : str) :
  forallb (λ c, (c <? 128) && (ascii_lower c =? c)) s = true → Forall lowered s.
Proof.
  rewrite forallb_forall, Forall_forall. intros H c Hc%list_elem_of_In.
  apply H, andb_prop in Hc as [?%N.ltb_lt ?%N.eqb_eq]. by split.
Qed.

Lemma lowered_join ws :
  Forall (Forall lowered) ws → Forall lowered (join (py " ") ws).
Proof.
  induction 1 as [|w ws Hw Hws IH]; [constructor |].
  destruct ws as [|w' ws]; [done |].
  rewrite join_cons_cons, !Forall_app.
  split; [done | split; [apply lowered_literal; by vm_compute | done]].
Qed.

(** ** The scan is idempotent *)

Lemma prefix_no_hyphen p : p ∈ HYPHEN_PREFIXES → 45 ∉ p.
Proof.
  unfold HYPHEN_PREFIXES. rewrite elem_of_list_to_set. revert p.
  apply Forall_forall. apply (bool_decide_unpack _). vm_compute. exact I.
Qed.

Lemma hyphenated_not_prefix (w n : str) : w ++ py "-" ++ n ∉ HYPHEN_PREFIXES.
Proof.
  intros H%prefix_no_hyphen. apply H.
  rewrite elem_of_app. right. apply elem_of_app. left. by constructor.
Qed.

Lemma hyphen_scan_idem ws : hyphen_scan (hyphen_scan ws) = hyphen_scan ws.
Proof.
  induction ws as [| w | w n rest IH1 IH2] using hyphen_scan_ind; [done..|].
  rewrite hyphen_scan_cons. case_bool_decide as Hw.
  - destruct (hyphen_scan rest) as [|x r] eqn:Hr; [done |].
    rewrite hyphen_scan_cons.
    rewrite bool_decide_eq_false_2 by apply hyphenated_not_prefix.
    by rewrite IH1.
  - destruct (hyphen_scan (n :: rest)) as [|x r] eqn:Hr.
    { by apply hyphen_scan_nil in Hr. }
    rewrite hyphen_scan_cons, bool_decide_eq_false_2 by done.
    by rewrite IH2.
Qed.

Lemma hyphen_scan_lowered ws :
  Forall (Forall lowered) ws → Forall (Forall lowered) (hyphen_scan ws).
Proof.
  induction ws as [| w | w n rest IH1 IH2] using hyphen_scan_ind; [done..|].
  intros Hws. inversion_clear Hws as [|? ? Hw Hws'].
  pose proof Hws' as Hws''. inversion_clear Hws' as [|? ? Hn Hrest].
  rewrite hyphen_scan_cons. case_bool_decide.
  - constructor; [|by apply IH1]. rewrite !Forall_app.
    split; [done | split; [apply lowered_literal; by vm_compute | done]].
  - constructor; [done | by apply IH2].
Qed.

Lemma hyphen_scan_short ws : (length ws < 2)%nat → hyphen_scan ws = ws.
Proof. destruct ws as [|w [|n rest]]; simpl; [done | done | lia]. Qed.

Ltac ascii_literal := apply (bool_decide_unpack _); vm_compute; exact I.


(** ** The normalizer *)





(** C8: the literal cases of the specification. *)
Theorem normalize_genre_literals `{U : Unicode} {L : AsciiLaws U} :
  normalize_genre (py "rnb") = Some (py "r&b")
  ∧ normalize_genre (py "Rock & Roll") = Some (py "rock and roll")
  ∧ normalize_genre (py "Hip Hop") = Some (py "hip-hop")
  ∧ normalize_genre (py "DnB") = Some (py "drum & bass")
  ∧ normalize_genre (py "the 80s") = Some (py "80s")
  ∧ normalize_genre (py "acid jazz") = Some (py "acid-jazz")
  ∧ normalize_genre (py "neo soul") = Some (py "neo-soul")
  ∧ normalize_genre (py "female vocalists") = Some (py "female vocalists").
Proof.
  repeat split;
    (rewrite normalize_genre_ascii_ucd by ascii_literal);
    vm_compute; reflexivity.
Qed.

Lemma normalize_genre_literals_ucd :
  normalize_genre (U := ucd) (py "rnb") = Some (py "r&b")
  ∧ normalize_genre (U := ucd) (py "Rock & Roll") = Some (py "rock and roll")
  ∧ normalize_genre (U := ucd) (py "Hip Hop") = Some (py "hip-hop")
  ∧ normalize_genre (U := ucd) (py "DnB") = Some (py "drum & bass")
  ∧ normalize_genre (U := ucd) (py "the 80s") = Some (py "80s")
  ∧ normalize_genre (U := ucd) (py "acid jazz") = Some (py "acid-jazz")
  ∧ normalize_genre (U := ucd) (py "neo soul") = Some (py "neo-soul")
  ∧ normalize_genre (U := ucd) (py "female vocalists")
    = Some (py "female vocalists").
Proof. exact (@normalize_genre_literals ucd ucd_ascii_laws). Defined.

(** What [normalize_genre] returns when the first alias pass misses. *)
Lemma apply_hyphen_rules_nil text canonical :
  _apply_hyphen_rules text = Some canonical → (canonical = [] ↔ text = []).
Proof.
  rewrite apply_hyphen_rules_eq. intros [= <-]. case_bool_decide as Hlen; [done |].
  split.
  - intros Hj. apply join_nil in Hj; [|apply hyphen_scan_word, split_word].
    apply hyphen_scan_nil in Hj. rewrite Hj in Hlen. simpl in Hlen. lia.
  - intros ->. simpl in Hlen. lia.
Qed.

Lemma normalize_genre_result `{U : Unicode} (raw : str) :
  ∃ canonical,
    normalize_genre raw = Some canonical
    ∧ (canonical = [] ↔ blank raw ∨ canonicalize raw = []).
Proof.
  pose proof (normalize_genre_canonicalize raw) as Hn.
  pose proof (strip_nil raw) as Hb.
  destruct (strip raw) as [|c s] eqn:Hs; cbn [truthy negb] in Hn.
  { exists []. split; [exact Hn |]. split; [left; by apply Hb | reflexivity]. }
  assert (¬ blank raw) as Hnb by (intros ?%Hb; discriminate).
  destruct (ALIAS_MAP !! canonicalize raw) as [v|] eqn:Hk.
  { exists v. split; [exact Hn |]. split.
    - intros ->. destruct (alias_value_nonempty _ _ Hk eq_refl).
    - intros [? | Hc]; [contradiction |]. rewrite Hc in Hk.
      rewrite alias_key_nonempty in Hk. discriminate. }
  destruct (_apply_hyphen_rules (canonicalize raw)) as [h|] eqn:Hh;
    [|rewrite apply_hyphen_rules_eq in Hh; discriminate].
  pose proof (apply_hyphen_rules_nil _ _ Hh) as Hnil.
  cbn [mbind option_bind] in Hn.
  destruct (ALIAS_MAP !! h) as [v|] eqn:Hk'.
  - exists v. split; [exact Hn |]. split.
    + intros ->. destruct (alias_value_nonempty _ _ Hk' eq_refl).
    + intros [? | Hc]; [contradiction |]. apply Hnil in Hc. rewrite Hc in Hk'.
      rewrite alias_key_nonempty in Hk'. discriminate.
  - exists h. split; [exact Hn |]. rewrite Hnil. split; [by right |].
    intros [? | ?]; [contradiction | assumption].
Qed.

(** C2 (as stated, refuted): a lone combining acute accent U+0301 is not
    whitespace, and its canonical form is the empty string. *)
Lemma normalize_genre_combining_mark_empty :
  normalize_genre (U := ucd) [769] = Some [] ∧ isspace 769 = false.
Proof. split; vm_compute; reflexivity. Qed.

(** C2 (amended): [normalize_genre] never raises, and its result is the
    empty string if and only if the raw input is empty or whitespace-only or
    its canonicalized text (trimmed, lowercased, decomposed, combining marks
    removed, whitespace collapsed) is empty; for an ASCII input the result is
    empty exactly when the input is empty or whitespace-only. *)
Theorem normalize_genre_total_and_empty `{U : Unicode} :
  (∀ raw, ∃ canonical,
     normalize_genre raw = Some canonical
     ∧ (canonical = [] ↔ blank raw ∨ canonicalize raw = []))
  ∧ (AsciiLaws U → ∀ raw, ascii raw →
       ∃ canonical,
         normalize_genre raw = Some canonical ∧ (canonical = [] ↔ blank raw)).
Proof.
  split; [apply normalize_genre_result |].
  intros L raw Hraw.
  destruct (normalize_genre_result raw) as (canonical & Hn & Hiff).
  exists canonical. split; [exact Hn |]. rewrite Hiff. split; [|by left].
  intros [? | Hc]; [assumption |]. rewrite canonicalize_ascii in Hc by exact Hraw.
  apply re_sub_ws_nil, fmap_nil_inv in Hc. by apply strip_nil.
Qed.

Lemma normalize_genre_total_and_empty_ucd :
  (∀ raw, ∃ canonical,
     normalize_genre (U := ucd) raw = Some canonical
     ∧ (canonical = [] ↔ blank raw ∨ canonicalize (U := ucd) raw = []))
  ∧ ∃ canonical,
      normalize_genre (U := ucd) (py " R&B ") = Some canonical
      ∧ (canonical = [] ↔ blank (py " R&B ")).
Proof.
  destruct (@normalize_genre_total_and_empty ucd) as [H1 H2].
  split; [exact H1 |]. apply (H2 ucd_ascii_laws). ascii_literal.
Defined.

(** ** Idempotence on ASCII input *)

Lemma normalize_genre_tokens `{U : Unicode} (raw : str) (ws : list str) :
  strip raw ≠ [] → canonicalize raw = join (py " ") ws → Forall word ws →
  normalize_genre raw = Some (alias_or_scan ws).
Proof.
  intros Hs Hc Hws. rewrite normalize_genre_canonicalize.
  destruct (strip raw); [done |]. cbn [truthy negb]. rewrite Hc.
  unfold alias_or_scan. destruct (ALIAS_MAP !! join (py " ") ws); [done |].
  rewrite apply_hyphen_rules_eq, split_join by done.
  assert ((if bool_decide (length ws < 2)%nat then join (py " ") ws
           else join (py " ") (hyphen_scan ws))
          = join (py " ") (hyphen_scan ws)) as ->
    by (case_bool_decide; [by rewrite hyphen_scan_short | done]).
  cbn [mbind option_bind]. cbv zeta.
  by destruct (ALIAS_MAP !! join (py " ") (hyphen_scan ws)).
Qed.

Lemma canonicalize_ascii_tokens `{U : Unicode} {L : AsciiLaws U} (raw : str) :
  ascii raw → strip raw ≠ [] →
  ∃ ws, ws ≠ [] ∧ Forall word ws ∧ Forall (Forall lowered) ws
        ∧ canonicalize raw = join (py " ") ws.
Proof.
  intros Hraw Hs. exists (split (ascii_lower <$> strip raw)).
  destruct (strip_tight raw) as [Hr [? | Hb]]; [done |].
  assert (rstrip (ascii_lower <$> strip raw) = ascii_lower <$> strip raw) as Hr'
    by by rewrite rstrip_lower, Hr.
  split; [|split; [apply split_word | split]].
  - intros Hnil%split_nil%rstrip_nil. rewrite Hr' in Hnil.
    by apply fmap_nil_inv in Hnil.
  - apply Forall_split, Forall_fmap.
    eapply Forall_impl; [by apply Forall_strip |]. apply ascii_lower_lowered.
  - rewrite canonicalize_ascii by done.
    apply re_sub_ws_join; [done |]. by rewrite at_break_lower.
Qed.

Lemma canonicalize_tokens `{U : Unicode} {L : AsciiLaws U} (ws : list str) :
  ws ≠ [] → Forall word ws → Forall (Forall lowered) ws →
  strip (join (py " ") ws) ≠ []
  ∧ canonicalize (join (py " ") ws) = join (py " ") ws.
Proof.
  intros Hne Hws Hlow. rewrite strip_join by done.
  split; [by apply join_ne_nil |].
  pose proof (lowered_join ws Hlow) as Hj.
  rewrite canonicalize_ascii by by apply lowered_ascii.
  rewrite strip_join, lowered_fmap by done.
  rewrite (proj2 (re_sub_ws_join _ (rstrip_join ws Hws)) (join_head ws Hws Hne)).
  by rewrite split_join.
Qed.

Lemma alias_values_fixed :
  Forall (λ item : str * str,
            ascii item.2 ∧ normalize_genre (U := ucd) item.2 = Some item.2)
    ALIAS_ITEMS.
Proof. apply (bool_decide_unpack _). vm_compute. exact I. Qed.

Lemma alias_value_fixed `{U : Unicode} {L : AsciiLaws U} k v :
  ALIAS_MAP !! k = Some v → normalize_genre v = Some v.
Proof.
  intros H%alias_item.
  destruct (proj1 (Forall_forall _ _) alias_values_fixed _ H) as [Ha Hn].
  by rewrite normalize_genre_ascii_ucd.
Qed.

(** C1 (code bug): [normalize_genre] trims and lowercases before it
    decomposes, so whitespace the decomposition brings in is never trimmed
    and the result is not a fixed point. The acute accent U+00B4 decomposes
    into a space and a combining mark: its canonical form is a single
    space, whose canonical form is the empty string. The diaeresis U+00A8
    before "a" gives " a", whose canonical form is "a". *)
Theorem normalize_genre_not_idempotent :
  normalize_genre (U := ucd) [180] = Some (py " ")
  ∧ normalize_genre (U := ucd) (py " ") = Some []
  ∧ normalize_genre (U := ucd) [168; 97] = Some (py " a")
  ∧ normalize_genre (U := ucd) (py " a") = Some (py "a").
Proof. repeat split; vm_compute; reflexivity. Qed.

(** On every ASCII string [normalize_genre] is idempotent: it returns a
    canonical string, and on that string it returns the same string again,
    whether it came from the alias table or out of the hyphenation stage. *)
Theorem normalize_genre_idempotent_ascii `{U : Unicode} {L : AsciiLaws U}
    (s : str) :
  ascii s →
  ∃ canonical,
    normalize_genre s = Some canonical
    ∧ normalize_genre canonical = Some canonical.
Proof.
  intros Hs. destruct (decide (strip s = [])) as [Hb | Hb].
  { exists []. rewrite !normalize_genre_canonicalize, Hb. done. }
  destruct (canonicalize_ascii_tokens s Hs Hb) as (ws & Hne & Hws & Hlow & Hc).
  exists (alias_or_scan ws). split; [by apply normalize_genre_tokens |].
  unfold alias_or_scan.
  destruct (ALIAS_MAP !! join (py " ") ws) as [v|] eqn:Hk1;
    [by eapply alias_value_fixed |].
  cbv zeta.
  destruct (ALIAS_MAP !! join (py " ") (hyphen_scan ws)) as [v|] eqn:Hk2;
    [by eapply alias_value_fixed |].
  assert (hyphen_scan ws ≠ []) as Hne'
    by (intros ?%hyphen_scan_nil; contradiction).
  destruct (canonicalize_tokens (hyphen_scan ws)) as [Hs' Hc'];
    [done | by apply hyphen_scan_word | by apply hyphen_scan_lowered |].
  rewrite (normalize_genre_tokens _ (hyphen_scan ws));
    [| done | done | by apply hyphen_scan_word].
  unfold alias_or_scan. by rewrite hyphen_scan_idem, Hk2.
Qed.

Lemma normalize_genre_idempotent_hip_hop :
  ∃ canonical,
    normalize_genre (U := ucd) (py "Hip Hop") = Some canonical
    ∧ normalize_genre (U := ucd) canonical = Some canonical.
Proof.
  apply (@normalize_genre_idempotent_ascii ucd ucd_ascii_laws (py "Hip Hop")).
  ascii_literal.
Defined.

(** ** The order on strings *)

Lemma str_leb_total s t : str_leb s t = true ∨ str_leb t s = true.
Proof.
  revert t. induction s as [|c s IH]; intros [|d t]; simpl; auto.
  destruct (N.ltb_spec c d); [by left |].
  destruct (N.ltb_spec d c); [by right |].
  assert (c = d) as -> by lia. rewrite N.eqb_refl. simpl. apply IH.
Qed.

Lemma str_leb_trans s t u :
  str_leb s t = true → str_leb t u = true → str_leb s u = true.
Proof.
  revert t u. induction s as [|c s IH]; intros [|d t] [|e u]; simpl; try done.
  intros [Hcd | [Hcd Hst]%andb_prop]%orb_prop [Hde | [Hde Htu]%andb_prop]%orb_prop;
    repeat match goal with
      | H : (_ <? _) = true |- _ => apply N.ltb_lt in H
      | H : (_ =? _) = true |- _ => apply N.eqb_eq in H
      end.
  - rewrite (proj2 (N.ltb_lt c e)) by lia. done.
  - subst. rewrite (proj2 (N.ltb_lt c e)) by lia. done.
  - subst. rewrite (proj2 (N.ltb_lt d e)) by lia. done.
  - subst. rewrite N.eqb_refl, (IH _ _ Hst Htu). apply orb_true_r.
Qed.

Instance item_le_total {V} : Total (@item_le V).
Proof. intros x y. apply str_leb_total. Qed.

Instance item_le_trans {V} : Transitive (@item_le V).
Proof. intros x y z. apply str_leb_trans. Qed.

Lemma StronglySorted_filter {A} (R : relation A) (P : A → Prop)
    `{∀ x, Decision (P x)} l :
  StronglySorted R l → StronglySorted R (filter P l).
Proof.
  induction 1 as [|x l Hl IH Hx]; [constructor |].
  rewrite filter_cons. case_decide; [|done].
  constructor; [done |]. rewrite Forall_forall in *.
  intros y [_ Hy]%list_elem_of_filter. by apply Hx.
Qed.

(** ** Clustering *)

Section clusters.
Context `{U : Unicode}.

Lemma normalize_genre_total raw : is_Some (normalize_genre raw).
Proof.
  destruct (normalize_genre_result raw) as (c & -> & _).
  by eexists.
Qed.

Lemma variants_of_cons canonical raw rest :
  variants_of canonical (raw :: rest) =
    if decide (normalize_genre raw = Some canonical)
    then raw :: variants_of canonical rest
    else variants_of canonical rest.
Proof. unfold variants_of. by rewrite filter_cons. Qed.

Lemma cluster_loop_lookup raw_genres : ∀ d,
  ∃ d', cluster_loop d raw_genres = Some d'
        ∧ d' !! [] = d !! []
        ∧ ∀ k, k ≠ [] → d' !! k = extend (d !! k) (variants_of k raw_genres).
Proof.
  induction raw_genres as [|raw rest IH]; intros d.
  { exists d. split; [done |]. split; [done |]. intros k _.
    by destruct (d !! k); simpl; rewrite ?app_nil_r. }
  cbn [cluster_loop]. unfold cluster_step.
  destruct (normalize_genre_total raw) as [c Hc]. rewrite Hc.
  destruct c as [|x c]; cbn [truthy negb mbind option_bind].
  - destruct (IH d) as (d' & -> & H0 & Hk). exists d'.
    split; [done |]. split; [done |]. intros k Hne.
    rewrite variants_of_cons, Hc, decide_False by congruence. by apply Hk.
  - set (d1 := alter _ _ _).
    destruct (IH d1) as (d' & -> & H0 & Hk). exists d'.
    assert (d1 !! (x :: c) = Some (default [] (d !! (x :: c)) ++ [raw])
            ∧ ∀ k, k ≠ x :: c → d1 !! k = d !! k) as [Hd1 Hd1'].
    { unfold d1. destruct (d !! (x :: c)) as [vs|] eqn:Hd.
      - split; [by rewrite lookup_alter_eq, Hd |].
        intros k Hne. by rewrite lookup_alter_ne.
      - split; [by rewrite lookup_alter_eq, lookup_insert_eq |].
        intros k Hne. by rewrite lookup_alter_ne, lookup_insert_ne. }
    split; [done |]. split; [by rewrite H0, Hd1' |].
    intros k Hne. rewrite (Hk k Hne), variants_of_cons, Hc.
    destruct (decide (k = x :: c)) as [-> | Hkc].
    + rewrite decide_True, Hd1 by done.
      destruct (d !! (x :: c)); simpl; [by rewrite <- app_assoc | done].
    + rewrite decide_False, Hd1' by congruence. done.
Qed.

Lemma find_duplicate_clusters_elem raw_genres :
  ∃ clusters,
    find_duplicate_clusters raw_genres = Some clusters
    ∧ StronglySorted (λ k1 k2, str_leb k1 k2 = true) clusters.*1
    ∧ NoDup clusters.*1
    ∧ ∀ canonical variants,
        (canonical, variants) ∈ clusters ↔
          canonical ≠ []
          ∧ variants = variants_of canonical raw_genres
          ∧ (2 ≤ length variants)%nat.
Proof.
  unfold find_duplicate_clusters.
  destruct (cluster_loop_lookup raw_genres ∅) as (d & -> & H0 & Hk).
  cbn [mbind option_bind]. eexists. split; [done |].
  assert (StronglySorted item_le
    (filter (λ item : str * list str, (2 ≤ length item.2)%nat)
       (sorted_items d))) as Hsorted.
  { apply StronglySorted_filter. unfold sorted_items.
    apply StronglySorted_merge_sort; apply _. }
  split; [|split].
  - eapply StronglySorted_fmap; [|exact Hsorted]. done.
  - assert (NoDup (sorted_items d).*1) as Hnd.
    { unfold sorted_items. rewrite merge_sort_Permutation.
      apply NoDup_fst_map_to_list. }
    apply (sublist_NoDup _ _ Hnd).
    apply fmap_sublist. apply sublist_filter.
  - intros k vs. rewrite list_elem_of_filter. unfold sorted_items.
    rewrite merge_sort_Permutation, elem_of_map_to_list. simpl.
    destruct (decide (k = [])) as [-> | Hne].
    { rewrite H0, lookup_empty. split; [by intros [_ ?] | by intros [? _]]. }
    rewrite (Hk k Hne), lookup_empty. simpl.
    destruct (variants_of k raw_genres) as [|v vs'] eqn:Hv.
    + split; [by intros [_ ?] |]. intros (_ & -> & Hlen). simpl in Hlen. lia.
    + split; [by intros [? [= <-]] | by intros (_ & -> & ?)].
Qed.
End clusters.

Lemma cluster_loop_ascii_ucd `{U : Unicode} {L : AsciiLaws U} raw_genres :
  Forall ascii raw_genres →
  ∀ d, cluster_loop d raw_genres = cluster_loop (U := ucd) d raw_genres.
Proof.
  induction 1 as [|raw rest Hraw Hrest IH]; intros d; [done |].
  cbn [cluster_loop]. unfold cluster_step.
  rewrite (normalize_genre_ascii_ucd raw Hraw).
  destruct (normalize_genre (U := ucd) raw) as [c|]; [|done].
  cbn [mbind option_bind]. destruct (negb (truthy c)); apply IH.
Qed.

(** C9: [find_duplicate_clusters] never raises; its clusters are listed in
    the order of their canonical keys, each key once; a pair (canonical,
    variants) is a cluster exactly when canonical is not empty, variants is
    the list of all raw strings with that canonical form, in their order and
    with their repetitions, and there are at least 2 of them. On
    ["Rock", "rock", "ROCK", "Pop"] the result is {"rock": ["Rock", "rock",
    "ROCK"]}. *)
Theorem find_duplicate_clusters_groups `{U : Unicode} {L : AsciiLaws U} :
  (∀ raw_genres, ∃ clusters,
     find_duplicate_clusters raw_genres = Some clusters
     ∧ StronglySorted (λ k1 k2, str_leb k1 k2 = true) clusters.*1
     ∧ NoDup clusters.*1
     ∧ ∀ canonical variants,
         (canonical, variants) ∈ clusters ↔
           canonical ≠ []
           ∧ variants = variants_of canonical raw_genres
           ∧ (2 ≤ length variants)%nat)
  ∧ find_duplicate_clusters [py "Rock"; py "rock"; py "ROCK"; py "Pop"]
    = Some [(py "rock", [py "Rock"; py "rock"; py "ROCK"])].
Proof.
  split; [apply find_duplicate_clusters_elem |].
  unfold find_duplicate_clusters. rewrite cluster_loop_ascii_ucd.
  - vm_compute. reflexivity.
  - repeat (constructor; [ascii_literal |]). constructor.
Qed.

Lemma find_duplicate_clusters_groups_ucd :
  (∀ raw_genres, ∃ clusters,
     find_duplicate_clusters (U := ucd) raw_genres = Some clusters
     ∧ StronglySorted (λ k1 k2, str_leb k1 k2 = true) clusters.*1
     ∧ NoDup clusters.*1
     ∧ ∀ canonical variants,
         (canonical, variants) ∈ clusters ↔
           canonical ≠ []
           ∧ variants = variants_of (U := ucd) canonical raw_genres
           ∧ (2 ≤ length variants)%nat)
  ∧ find_duplicate_clusters (U := ucd)
      [py "Rock"; py "rock"; py "ROCK"; py "Pop"]
    = Some [(py "rock", [py "Rock"; py "rock"; py "ROCK"])].
Proof. exact (@find_duplicate_clusters_groups ucd ucd_ascii_laws). Defined.

(** ** The playlist query *)

Section playlist_properties.
Variable random_shuffle : list Z → list Z.
Hypothesis random_shuffle_perm : ∀ l, random_shuffle l ≡ₚ l.

Lemma elem_of_foldl_intersection (x : Z) (s : gset Z) rest :
  x ∈ foldl (∩) s rest ↔ x ∈ s ∧ Forall (λ s', x ∈ s') rest.
Proof.
  revert s. induction rest as [|s' rest IH]; intros s; simpl.
  - split; [by intros ?; split | by intros [? _]].
  - rewrite IH, elem_of_intersection, Forall_cons. tauto.
Qed.

Lemma elem_of_intersect_all (x : Z) sets :
  x ∈ intersect_all sets ↔ sets ≠ [] ∧ Forall (λ s, x ∈ s) sets.
Proof.
  destruct sets as [|s rest]; simpl.
  - split; [by intros ?%not_elem_of_empty | by intros [? _]].
  - rewrite elem_of_foldl_intersection, Forall_cons.
    split; [by intros ?; split | by intros [_ ?]].
Qed.

Lemma compose_filters_requested db title genres genre_groups bpm_range
    artists similar_to :
  compose_filters db title genres genre_groups bpm_range artists similar_to =
    match requested_sets db title genres genre_groups bpm_range artists
            similar_to with
    | [] => None
    | s :: rest => Some (foldl (∩) s rest)
    end.
Proof.
  unfold compose_filters, requested_sets, title_set, genre_pool, bpm_set,
    artist_pool, lookup_set.
  destruct (given title), (given genres), (given genre_groups),
    bpm_range as [[lo hi]|], (given artists), (given similar_to);
    simpl; rewrite ?union_empty_l_L, ?union_empty_r_L; reflexivity.
Qed.

Lemma build_playlist_query_unlimited db title genres genre_groups bpm_range
    artists similar_to shuffle :
  build_playlist_query random_shuffle db title genres genre_groups bpm_range
    artists similar_to None shuffle
  ≡ₚ elements (intersect_all (requested_sets db title genres genre_groups
                               bpm_range artists similar_to)).
Proof.
  unfold build_playlist_query. rewrite compose_filters_requested.
  unfold intersect_all.
  destruct (requested_sets _ _ _ _ _ _ _) as [|s rest].
  { by rewrite elements_empty. }
  simpl. destruct shuffle; [apply random_shuffle_perm | done].
Qed.

Lemma build_playlist_query_limit db title genres genre_groups bpm_range
    artists similar_to limit shuffle :
  build_playlist_query random_shuffle db title genres genre_groups bpm_range
    artists similar_to limit shuffle =
  let result_list :=
    build_playlist_query random_shuffle db title genres genre_groups
      bpm_range artists similar_to None shuffle in
  if given_int limit then slice_to (default 0%Z limit) result_list
  else result_list.
Proof.
  unfold build_playlist_query.
  destruct (compose_filters _ _ _ _ _ _ _); simpl; [done |].
  destruct (given_int limit); [|done].
  unfold slice_to. destruct (0 <=? default 0 limit)%Z; by rewrite take_nil.
Qed.

(** C3 (amended): without a limit, the identifiers [build_playlist_query]
    returns are those of the intersection, over exactly the requested
    dimensions, of the title set, the genre pool, the bpm set and the
    artist pool (nothing when no dimension is requested); and when the
    query requests a title, genre or artist dimension, adding a bpm_range
    to it never adds an identifier. *)
Theorem build_playlist_query_intersection db title genres genre_groups
    bpm_range artists similar_to shuffle :
  (list_to_set
     (build_playlist_query random_shuffle db title genres genre_groups
        bpm_range artists similar_to None shuffle) : gset Z)
  = intersect_all
      (requested_sets db title genres genre_groups bpm_range artists
         similar_to)
  ∧ (given title || given genres || given genre_groups
     || given artists || given similar_to = true →
     ∀ x,
       x ∈ build_playlist_query random_shuffle db title genres genre_groups
             bpm_range artists similar_to None shuffle →
       x ∈ build_playlist_query random_shuffle db title genres genre_groups
             None artists similar_to None shuffle).
Proof.
  split.
  - apply set_eq. intros x.
    by rewrite elem_of_list_to_set, build_playlist_query_unlimited,
      elem_of_elements.
  - intros Hreq x.
    rewrite !build_playlist_query_unlimited, !elem_of_elements,
      !elem_of_intersect_all.
    unfold requested_sets. rewrite !Forall_app.
    intros (_ & Ht & Hg & _ & Ha). split; [|done].
    destruct (given title); [done |].
    destruct (given genres); [done |].
    destruct (given genre_groups); [done |].
    destruct (given artists); [done |].
    by destruct (given similar_to).
Qed.

(** C6: when no dimension is requested (title, genres, genre_groups,
    artists and similar_to each absent or empty, no bpm_range), the result
    is the empty list, whatever the collaborator holds and whatever limit
    and shuffle are. *)
Theorem build_playlist_query_no_filters db title genres genre_groups
    artists similar_to limit shuffle :
  given title = false → given genres = false →
  given genre_groups = false → given artists = false →
  given similar_to = false →
  build_playlist_query random_shuffle db title genres genre_groups None
    artists similar_to limit shuffle = [].
Proof.
  intros Ht Hg Hgg Ha Hs. unfold build_playlist_query, compose_filters.
  by rewrite Ht, Hg, Hgg, Ha, Hs.
Qed.

(** C7 (amended): for a positive limit the result is the first [limit]
    elements of the (optionally shuffled) result list, so it has at most
    [limit] elements; a limit of 0 is taken as no limit. *)
Theorem build_playlist_query_positive_limit db title genres genre_groups
    bpm_range artists similar_to shuffle :
  (∀ limit, (0 < limit)%Z →
     build_playlist_query random_shuffle db title genres genre_groups
       bpm_range artists similar_to (Some limit) shuffle
     = take (Z.to_nat limit)
         (build_playlist_query random_shuffle db title genres genre_groups
            bpm_range artists similar_to None shuffle)
     ∧ (Z.of_nat
          (length
             (build_playlist_query random_shuffle db title genres
                genre_groups bpm_range artists similar_to (Some limit)
                shuffle))
        ≤ limit)%Z)
  ∧ build_playlist_query random_shuffle db title genres genre_groups
      bpm_range artists similar_to (Some 0%Z) shuffle
    = build_playlist_query random_shuffle db title genres genre_groups
        bpm_range artists similar_to None shuffle.
Proof.
  split; [|by rewrite build_playlist_query_limit].
  intros limit Hpos. rewrite build_playlist_query_limit. cbv zeta.
  assert (given_int (Some limit) = true) as ->.
  { simpl. destruct (Z.eqb_spec limit 0); [lia | done]. }
  unfold slice_to. simpl default.
  destruct (Z.leb_spec 0 limit); [|lia].
  split; [done |]. rewrite length_take. lia.
Qed.

(** C10: the list [build_playlist_query] returns has no identifier twice,
    whatever the filters, the limit and the shuffle flag, and even when the
    collaborator's lists have repeats. *)
Theorem build_playlist_query_NoDup db title genres genre_groups bpm_range
    artists similar_to limit shuffle :
  NoDup (build_playlist_query random_shuffle db title genres genre_groups
           bpm_range artists similar_to limit shuffle).
Proof.
  rewrite build_playlist_query_limit. cbv zeta.
  assert (NoDup (build_playlist_query random_shuffle db title genres
                   genre_groups bpm_range artists similar_to None shuffle))
    as Hnd.
  { rewrite build_playlist_query_unlimited. apply NoDup_elements. }
  destruct (given_int limit); [|done].
  unfold slice_to.
  destruct (0 <=? default 0 limit)%Z;
    (eapply sublist_NoDup; [exact Hnd | apply sublist_take]).
Qed.
End playlist_properties.

(** C3 (as stated, refuted): a query with no filter returns nothing; the
    same query with a bpm_range added returns track 1. *)
Lemma bpm_range_alone_adds :
  build_playlist_query (λ l, l) db_bpm_only None None None None None None
    None false = []
  ∧ build_playlist_query (λ l, l) db_bpm_only None None None
      (Some (60, 200)%Z) None None None false = [1%Z].
Proof. split; vm_compute; reflexivity. Qed.

Lemma build_playlist_query_intersection_rock :
  (list_to_set
     (build_playlist_query reverse db_all None (Some [py "rock"]) None
        (Some (60, 200)%Z) None None None true) : gset Z)
  = intersect_all
      (requested_sets db_all None (Some [py "rock"]) None (Some (60, 200)%Z)
         None None)
  ∧ ∀ x,
      x ∈ build_playlist_query reverse db_all None (Some [py "rock"]) None
            (Some (60, 200)%Z) None None None true →
      x ∈ build_playlist_query reverse db_all None (Some [py "rock"]) None
            None None None None true.
Proof.
  destruct (build_playlist_query_intersection reverse reverse_Permutation
              db_all None (Some [py "rock"]) None (Some (60, 200)%Z)
              None None true) as [H1 H2].
  split; [exact H1 | exact (H2 eq_refl)].
Defined.

Lemma build_playlist_query_no_filters_empty_lists :
  build_playlist_query reverse db_all (Some []) (Some []) (Some []) None
    (Some []) None (Some 5%Z) true = [].
Proof.
  apply (build_playlist_query_no_filters reverse db_all (Some []) (Some [])
           (Some []) (Some []) None (Some 5%Z) true); reflexivity.
Defined.

(** C7 (as stated, refuted): with limit 0 the whole result is returned, two
    tracks here. *)
Lemma limit_zero_not_applied :
  length
    (build_playlist_query (λ l, l) db_all None None None (Some (60, 200)%Z)
       None None (Some 0%Z) false) = 2%nat.
Proof. vm_compute. reflexivity. Qed.

Lemma build_playlist_query_limit_one :
  build_playlist_query reverse db_all None None None (Some (60, 200)%Z)
    None None (Some 1%Z) true
  = take 1
      (build_playlist_query reverse db_all None None None (Some (60, 200)%Z)
         None None None true)
  ∧ (Z.of_nat
       (length
          (build_playlist_query reverse db_all None None None
             (Some (60, 200)%Z) None None (Some 1%Z) true))
     ≤ 1)%Z.
Proof.
  apply (proj1 (build_playlist_query_positive_limit reverse db_all None None
                  None (Some (60, 200)%Z) None None true) 1%Z).
  lia.
Defined.

Lemma build_playlist_query_NoDup_repeats :
  NoDup (build_playlist_query reverse db_all (Some (py "love"))
           (Some [py "rock"]) None (Some (60, 200)%Z) None
           (Some (py "Devo")) (Some (-1)%Z) true).
Proof.
  apply (build_playlist_query_NoDup reverse reverse_Permutation).
Defined.


(** * Further properties of the code *)

(** ** [_normalize_separators] *)

Lemma re_sub_ws_twice s :
  re_sub_ws true (re_sub_ws true s) = re_sub_ws true s
  ∧ re_sub_ws false (re_sub_ws true s) = re_sub_ws true s
  ∧ re_sub_ws false (re_sub_ws false s) = re_sub_ws false s.
Proof.
  induction s as [|c s (IH1 & IH2 & IH3)]; [done |].
  destruct (isspace c) eqn:Hc.
  - destruct (re_sub_ws_cons_space c s Hc) as [-> ->].
    repeat split; [done | done |].
    assert (isspace 32 = true) as H32 by done.
    destruct (re_sub_ws_cons_space 32 (re_sub_ws true s) H32) as [_ ->].
    by rewrite IH1.
  - rewrite !(re_sub_ws_cons_word _ c s Hc).
    rewrite !(re_sub_ws_cons_word _ c _ Hc). by rewrite IH3.
Qed.

Lemma at_break_re_sub_ws s : at_break (re_sub_ws false s) = at_break s.
Proof.
  destruct s as [|c s]; [done |]. simpl.
  destruct (isspace c) eqn:Hc; [done |]. simpl. by rewrite Hc.
Qed.

Lemma split_re_sub_ws s :
  split (re_sub_ws true s) = split s ∧ split (re_sub_ws false s) = split s.
Proof.
  induction s as [|c s [IH1 IH2]]; [done |].
  destruct (isspace c) eqn:Hc.
  - destruct (re_sub_ws_cons_space c s Hc) as [-> ->].
    rewrite (split_cons_space c s Hc). split; [done |].
    by rewrite split_cons_space.
  - rewrite !(re_sub_ws_cons_word _ c s Hc).
    rewrite !(split_cons_word c _ Hc).
    by rewrite IH2, at_break_re_sub_ws.
Qed.

(** X1: collapsing whitespace is idempotent and keeps the tokens of the
    text: [_normalize_separators] applied twice gives what it gives once, and
    [split] sees the same words before and after. *)
Theorem normalize_separators_idempotent (text : str) :
  _normalize_separators (_normalize_separators text)
  = _normalize_separators text
  ∧ split (_normalize_separators text) = split text.
Proof.
  unfold _normalize_separators. split.
  - apply re_sub_ws_twice.
  - apply split_re_sub_ws.
Qed.

Lemma single_spaced_cons_word c s :
  isspace c = false → single_spaced s → single_spaced (c :: s).
Proof.
  intros Hc Hs [|i] x Hx Hsp.
  - injection Hx as <-. congruence.
  - exact (Hs i x Hx Hsp).
Qed.

Lemma single_spaced_cons_space s :
  at_break s = false → single_spaced s → single_spaced (32 :: s).
Proof.
  intros Hb Hs [|i] x Hx Hsp.
  - injection Hx as <-. split; [done |]. intros d Hd.
    destruct s as [|e s]; [done |]. injection Hd as <-. exact Hb.
  - exact (Hs i x Hx Hsp).
Qed.

Lemma re_sub_ws_true_head s :
  re_sub_ws true s = [] ∨ at_break (re_sub_ws true s) = false.
Proof.
  induction s as [|c s IH]; [by left |]. simpl.
  destruct (isspace c) eqn:Hc; [done |]. right. simpl. exact Hc.
Qed.

Lemma re_sub_ws_single_spaced s :
  single_spaced (re_sub_ws true s) ∧ single_spaced (re_sub_ws false s).
Proof.
  induction s as [|c s [IH1 IH2]]; [by split; intros [|?] ? |].
  destruct (isspace c) eqn:Hc.
  - destruct (re_sub_ws_cons_space c s Hc) as [-> ->].
    split; [done |].
    destruct (re_sub_ws_true_head s) as [-> | Hb].
    + intros [|i] x Hx Hsp; [|done]. injection Hx as <-.
      split; [done |]. by intros d.
    + by apply single_spaced_cons_space.
  - rewrite !(re_sub_ws_cons_word _ c s Hc).
    split; by apply single_spaced_cons_word.
Qed.

(** X2: in the text [_normalize_separators] returns, every whitespace
    character is an ASCII space and none is followed by another whitespace
    character, whatever whitespace (tabs, newlines, no-break spaces, runs of
    them) the input had. *)
Theorem normalize_separators_single_spaced (text : str) :
  single_spaced (_normalize_separators text).
Proof. apply re_sub_ws_single_spaced. Qed.

Lemma normalize_separators_single_spaced_tab :
  32 = 32
  ∧ ∀ d, _normalize_separators [97; 9; 160; 98] !! 2%nat = Some d →
         isspace d = false.
Proof.
  apply (normalize_separators_single_spaced [97; 9; 160; 98] 1%nat 32);
    reflexivity.
Defined.

(** ** [_apply_hyphen_rules] *)

Lemma apply_hyphen_rules_split text out :
  _apply_hyphen_rules text = Some out →
  split out = hyphen_scan (split text).
Proof.
  rewrite apply_hyphen_rules_eq. intros [= <-].
  case_bool_decide as Hlen; [by rewrite hyphen_scan_short |].
  apply split_join, hyphen_scan_word, split_word.
Qed.

(** X3: hyphenation is idempotent on every text: applied to its own output
    it returns that output. *)
Theorem apply_hyphen_rules_idempotent (text : str) :
  _apply_hyphen_rules text ≫= _apply_hyphen_rules = _apply_hyphen_rules text.
Proof.
  destruct (_apply_hyphen_rules text) as [out|] eqn:Hout; [|done].
  cbn [mbind option_bind].
  pose proof (apply_hyphen_rules_split _ _ Hout) as Hsplit.
  rewrite apply_hyphen_rules_eq in Hout. injection Hout as Hout.
  rewrite apply_hyphen_rules_eq, Hsplit, hyphen_scan_idem. f_equal.
  destruct (decide (length (split text) < 2)%nat) as [Hlen | Hlen].
  - rewrite hyphen_scan_short by done. by rewrite bool_decide_eq_true_2.
  - rewrite bool_decide_eq_false_2 in Hout by done. rewrite Hout.
    by destruct (bool_decide _).
Qed.

Lemma hyphen_scan_prefix_last ws : ∀ i w,
  hyphen_scan ws !! i = Some w → w ∈ HYPHEN_PREFIXES →
  S i = length (hyphen_scan ws).
Proof.
  induction ws as [| w0 | w0 n rest IH1 IH2] using hyphen_scan_ind.
  - intros i w H. discriminate H.
  - intros [|i] w H Hw; [reflexivity | discriminate H].
  - intros i w. rewrite hyphen_scan_cons. case_bool_decide as Hw0.
    + destruct i as [|i]; cbn [lookup list_lookup length].
      * intros [= <-] H. destruct (hyphenated_not_prefix _ _ H).
      * intros Hi Hw. f_equal. exact (IH1 i w Hi Hw).
    + destruct i as [|i]; cbn [lookup list_lookup length].
      * intros [= <-] H. contradiction.
      * intros Hi Hw. f_equal. exact (IH2 i w Hi Hw).
Qed.

(** X4: after hyphenation a word of the prefix set can only stand last: no
    token of the output that is in [HYPHEN_PREFIXES] is followed by another
    token. *)
Theorem apply_hyphen_rules_prefix_last (text out : str) (i : nat) (w : str) :
  _apply_hyphen_rules text = Some out →
  split out !! i = Some w → w ∈ HYPHEN_PREFIXES →
  S i = length (split out).
Proof.
  intros Hout. rewrite (apply_hyphen_rules_split _ _ Hout).
  apply hyphen_scan_prefix_last.
Qed.

Lemma apply_hyphen_rules_prefix_last_punk_post :
  S 2 = length (split (py "post-neo punk post")).
Proof.
  apply (apply_hyphen_rules_prefix_last (py "post neo  punk post")
           (py "post-neo punk post") 2 (py "post")).
  - vm_compute. reflexivity.
  - vm_compute. reflexivity.
  - apply (bool_decide_unpack _). vm_compute. exact I.
Defined.

(** ** [normalize_genre] on ASCII input *)

Lemma lstrip_lower s : lstrip (ascii_lower <$> s) = ascii_lower <$> lstrip s.
Proof.
  induction s as [|c s IH]; [done |].
  rewrite fmap_cons. simpl. rewrite isspace_ascii_lower.
  by destruct (isspace c).
Qed.

Lemma strip_lower s : strip (ascii_lower <$> s) = ascii_lower <$> strip s.
Proof. unfold strip. by rewrite lstrip_lower, rstrip_lower. Qed.

Lemma split_blank s : blank s → split s = [].
Proof.
  induction 1 as [|c s Hc Hs IH]; [done |]. by rewrite split_cons_space.
Qed.

Lemma split_lstrip s : split (lstrip s) = split s.
Proof.
  induction s as [|c s IH]; [done |]. simpl lstrip.
  destruct (isspace c) eqn:Hc; [|done]. by rewrite split_cons_space.
Qed.

Lemma at_break_rstrip_cons s :
  rstrip s ≠ [] → at_break (rstrip s) = at_break s.
Proof.
  destruct s as [|c s]; [done |]. simpl.
  destruct (rstrip s); [|done].
  destruct (isspace c) eqn:Hc; [by intros [] |]. simpl. by rewrite Hc.
Qed.

Lemma split_rstrip s : split (rstrip s) = split s.
Proof.
  induction s as [|c s IH]; [done |]. simpl rstrip.
  destruct (rstrip s) as [|x r] eqn:Hr.
  - apply rstrip_nil, split_blank in Hr.
    destruct (isspace c) eqn:Hc.
    + by rewrite split_cons_space.
    + rewrite (split_cons_word c s Hc), Hr. simpl. by rewrite Hc.
  - destruct (isspace c) eqn:Hc.
    + by rewrite (split_cons_space c (x :: r) Hc), (split_cons_space c s Hc).
    + rewrite (split_cons_word c (x :: r) Hc), (split_cons_word c s Hc), IH.
      by rewrite <- Hr, at_break_rstrip_cons by (rewrite Hr; done).
Qed.

Lemma split_strip s : split (strip s) = split s.
Proof. unfold strip. by rewrite split_rstrip, split_lstrip. Qed.

Lemma normalize_genre_by_tokens `{U : Unicode} {L : AsciiLaws U} (s : str) :
  ascii s →
  normalize_genre s =
    Some (match split (ascii_lower <$> s) with
          | [] => []
          | ws => alias_or_scan ws
          end).
Proof.
  intros Hs.
  assert (split (ascii_lower <$> s) = split (ascii_lower <$> strip s)) as Hsp
    by by rewrite <- strip_lower, split_strip.
  destruct (decide (strip s = [])) as [Hb | Hb].
  { rewrite Hsp, Hb. rewrite normalize_genre_canonicalize, Hb. done. }
  destruct (canonicalize_ascii_tokens s Hs Hb) as (ws & Hne & Hws & _ & Hc).
  assert (ws = split (ascii_lower <$> s)) as <-.
  { rewrite <- (split_join ws Hws), <- Hc, canonicalize_ascii by done.
    by rewrite (proj2 (split_re_sub_ws _)). }
  rewrite (normalize_genre_tokens s ws Hb Hc Hws). by destruct ws.
Qed.

(** X5: on ASCII input the canonical form depends only on the lowercase
    tokens: two raw strings that differ only in letter case and in the
    whitespace around and between their words get the same result. *)
Theorem normalize_genre_tokens_only `{U : Unicode} {L : AsciiLaws U}
    (s t : str) :
  ascii s → ascii t →
  split (ascii_lower <$> s) = split (ascii_lower <$> t) →
  normalize_genre s = normalize_genre t.
Proof.
  intros Hs Ht Heq. by rewrite !normalize_genre_by_tokens, Heq.
Qed.

Lemma normalize_genre_tokens_only_hip_hop :
  normalize_genre (U := ucd) (py "  Hip   HOP ")
  = normalize_genre (U := ucd) (py "hip hop").
Proof.
  apply (@normalize_genre_tokens_only ucd ucd_ascii_laws).
  - ascii_literal.
  - ascii_literal.
  - vm_compute. reflexivity.
Defined.

Lemma alias_values_tidy :
  Forall (λ item : str * str,
            strip item.2 = item.2 ∧ re_sub_ws false item.2 = item.2
            ∧ Forall (λ c, c < 128 ∧ ascii_lower c = c) item.2)
    ALIAS_ITEMS.
Proof. apply (bool_decide_unpack _). vm_compute. exact I. Qed.

Lemma tokens_tidy (ws : list str) :
  ws ≠ [] → Forall word ws → Forall (Forall lowered) ws →
  strip (join (py " ") ws) = join (py " ") ws
  ∧ re_sub_ws false (join (py " ") ws) = join (py " ") ws
  ∧ Forall lowered (join (py " ") ws).
Proof.
  intros Hne Hws Hlow. split; [by apply strip_join |].
  split; [|by apply lowered_join].
  rewrite (proj2 (re_sub_ws_join _ (rstrip_join ws Hws)) (join_head ws Hws Hne)).
  by rewrite split_join.
Qed.

(** X6: what [normalize_genre] returns for an ASCII input is itself in
    canonical shape: it has no leading or trailing whitespace, its words are
    separated by single spaces, and it is ASCII in lowercase. *)
Theorem normalize_genre_canonical_shape `{U : Unicode} {L : AsciiLaws U}
    (raw canonical : str) :
  ascii raw → normalize_genre raw = Some canonical →
  strip canonical = canonical
  ∧ _normalize_separators canonical = canonical
  ∧ ascii canonical ∧ lower canonical = canonical.
Proof.
  intros Hraw. rewrite normalize_genre_by_tokens by done. intros [= <-].
  assert (∀ c : str,
            strip c = c ∧ re_sub_ws false c = c ∧ Forall lowered c →
            strip c = c ∧ _normalize_separators c = c
            ∧ ascii c ∧ lower c = c) as Hshape.
  { intros c (H1 & H2 & H3). repeat split; [done | done | |].
    - by apply lowered_ascii.
    - rewrite lower_ascii by by apply lowered_ascii. by apply lowered_fmap. }
  assert (∀ k v, ALIAS_MAP !! k = Some v →
            strip v = v ∧ re_sub_ws false v = v ∧ Forall lowered v) as Halias.
  { intros k v H%alias_item.
    exact (proj1 (Forall_forall _ _) alias_values_tidy _ H). }
  pose proof (split_word (ascii_lower <$> raw)) as Hws.
  assert (Forall (Forall lowered) (split (ascii_lower <$> raw))) as Hlow.
  { apply Forall_split, Forall_fmap.
    eapply Forall_impl; [exact Hraw |]. apply ascii_lower_lowered. }
  destruct (split (ascii_lower <$> raw)) as [|w ws] eqn:Hsp.
  { apply Hshape. repeat split; constructor. }
  apply Hshape. unfold alias_or_scan.
  destruct (ALIAS_MAP !! join (py " ") (w :: ws)) as [v|] eqn:Hk1;
    [by eapply Halias |].
  cbv zeta.
  destruct (ALIAS_MAP !! join (py " ") (hyphen_scan (w :: ws))) as [v|] eqn:Hk2;
    [by eapply Halias |].
  apply tokens_tidy.
  - intros ?%hyphen_scan_nil. discriminate.
  - by apply hyphen_scan_word.
  - by apply hyphen_scan_lowered.
Qed.

Lemma normalize_genre_canonical_shape_rock_roll :
  strip (py "rock and roll") = py "rock and roll"
  ∧ _normalize_separators (py "rock and roll") = py "rock and roll"
  ∧ ascii (py "rock and roll")
  ∧ lower (Unicode := ucd) (py "rock and roll") = py "rock and roll".
Proof.
  apply (@normalize_genre_canonical_shape ucd ucd_ascii_laws
           (py " Rock  &  ROLL ") (py "rock and roll")).
  - ascii_literal.
  - vm_compute. reflexivity.
Defined.

Lemma normalize_genre_fixed `{U : Unicode} {L : AsciiLaws U} (s canonical : str) :
  ascii s → normalize_genre s = Some canonical →
  normalize_genre canonical = Some canonical.
Proof.
  intros Hs. rewrite normalize_genre_by_tokens by done. intros [= <-].
  pose proof (split_word (ascii_lower <$> s)) as Hws.
  assert (Forall (Forall lowered) (split (ascii_lower <$> s))) as Hlow.
  { apply Forall_split, Forall_fmap.
    eapply Forall_impl; [exact Hs |]. apply ascii_lower_lowered. }
  destruct (split (ascii_lower <$> s)) as [|w ws] eqn:Hsp.
  { by rewrite normalize_genre_canonicalize. }
  unfold alias_or_scan.
  destruct (ALIAS_MAP !! join (py " ") (w :: ws)) as [v|] eqn:Hk1;
    [by eapply alias_value_fixed |].
  cbv zeta.
  destruct (ALIAS_MAP !! join (py " ") (hyphen_scan (w :: ws))) as [v|] eqn:Hk2;
    [by eapply alias_value_fixed |].
  assert (hyphen_scan (w :: ws) ≠ []) as Hne
    by (intros ?%hyphen_scan_nil; discriminate).
  destruct (canonicalize_tokens (hyphen_scan (w :: ws))) as [Hs' Hc'];
    [done | by apply hyphen_scan_word | by apply hyphen_scan_lowered |].
  rewrite (normalize_genre_tokens _ (hyphen_scan (w :: ws)));
    [| done | done | by apply hyphen_scan_word].
  unfold alias_or_scan. by rewrite hyphen_scan_idem, Hk2.
Qed.

(** ** [build_normalization_map] *)

Lemma normalization_loop_lookup `{U : Unicode} raw_genres : ∀ m0,
  ∃ m, normalization_loop m0 raw_genres = Some m
       ∧ ∀ raw, m !! raw =
           match normalize_genre raw with
           | Some ((_ :: _) as canonical) =>
               if decide (raw ∈ raw_genres) then Some canonical else m0 !! raw
           | _ => m0 !! raw
           end.
Proof.
  induction raw_genres as [|r rest IH]; intros m0.
  { exists m0. split; [done |]. intros raw.
    destruct (normalize_genre raw) as [[|x c]|]; [done | | done].
    rewrite decide_False; [done |]. by intros ?%elem_of_nil. }
  cbn [normalization_loop]. unfold normalization_step.
  destruct (normalize_genre_total r) as [c Hc]. rewrite Hc.
  destruct c as [|x c]; cbn [truthy mbind option_bind].
  - destruct (IH m0) as (m & -> & Hm). exists m. split; [done |].
    intros raw. rewrite Hm.
    destruct (normalize_genre raw) as [[|y d]|] eqn:Hraw; [done | | done].
    assert (raw ≠ r) as Hne by (intros ->; congruence).
    destruct (decide (raw ∈ rest)) as [Hin | Hin].
    + rewrite decide_True; [done |]. by right.
    + rewrite decide_False; [done |]. by intros [? | ?]%elem_of_cons.
  - destruct (IH (<[r := x :: c]> m0)) as (m & -> & Hm). exists m.
    split; [done |]. intros raw. rewrite Hm.
    destruct (decide (raw = r)) as [-> | Hne].
    + rewrite Hc, lookup_insert_eq.
      destruct (decide (r ∈ rest)), (decide (r ∈ r :: rest)) as [? | Hn];
        try done; destruct Hn; by left.
    + rewrite lookup_insert_ne by done.
      destruct (normalize_genre raw) as [[|y d]|]; [done | | done].
      destruct (decide (raw ∈ rest)) as [Hin | Hin].
      * rewrite decide_True; [done |]. by right.
      * rewrite decide_False; [done |]. by intros [? | ?]%elem_of_cons.
Qed.

Lemma build_normalization_map_lookup `{U : Unicode} (raw_genres : list str) :
  ∃ mapping,
    build_normalization_map raw_genres = Some mapping
    ∧ ∀ raw canonical,
        mapping !! raw = Some canonical ↔
          raw ∈ raw_genres ∧ normalize_genre raw = Some canonical
          ∧ canonical ≠ [].
Proof.
  unfold build_normalization_map.
  destruct (normalization_loop_lookup raw_genres ∅) as (m & -> & Hm).
  exists m. split; [done |]. intros raw canonical. rewrite Hm, lookup_empty.
  destruct (normalize_genre raw) as [[|x c]|] eqn:Hraw.
  - split; [done |]. by intros (_ & [= <-] & ?).
  - destruct (decide (raw ∈ raw_genres)) as [Hin | Hin].
    + split; [by intros [= <-] | by intros (_ & [= <-] & _)].
    + split; [done | by intros (? & _)].
  - split; [done | by intros (_ & ? & _)].
Qed.

(** X7: [build_normalization_map] never raises, and its dictionary maps a
    string to a canonical form exactly when the string occurs in the input,
    that form is what [normalize_genre] gives for it, and the form is not
    empty; a string that occurs several times has one entry. *)
Theorem build_normalization_map_entries `{U : Unicode} (raw_genres : list str) :
  ∃ mapping,
    build_normalization_map raw_genres = Some mapping
    ∧ ∀ raw canonical,
        mapping !! raw = Some canonical ↔
          raw ∈ raw_genres ∧ normalize_genre raw = Some canonical
          ∧ canonical ≠ [].
Proof. apply build_normalization_map_lookup. Qed.

(** X8: the two batch utilities agree: every raw string listed in a cluster
    of [find_duplicate_clusters] is a key of the dictionary of
    [build_normalization_map], mapped to that cluster's canonical form. *)
Theorem clusters_within_normalization_map `{U : Unicode}
    (raw_genres : list str) :
  ∃ mapping clusters,
    build_normalization_map raw_genres = Some mapping
    ∧ find_duplicate_clusters raw_genres = Some clusters
    ∧ ∀ canonical variants raw,
        (canonical, variants) ∈ clusters → raw ∈ variants →
        mapping !! raw = Some canonical.
Proof.
  destruct (build_normalization_map_lookup raw_genres) as (m & Hm & Hlookup).
  destruct (find_duplicate_clusters_elem raw_genres)
    as (clusters & Hc & _ & _ & Helem).
  exists m, clusters. split; [done |]. split; [done |].
  intros canonical variants raw (Hne & -> & _)%Helem Hraw.
  unfold variants_of in Hraw. apply list_elem_of_filter in Hraw as [Hn Hin].
  by apply Hlookup.
Qed.

(** X9: on ASCII input the values of the normalization map are canonical:
    [normalize_genre] maps each value to itself, so a value that also occurs
    among the raw strings is mapped to itself by the dictionary. *)
Theorem build_normalization_map_values_fixed `{U : Unicode} {L : AsciiLaws U}
    (raw_genres : list str) :
  Forall ascii raw_genres →
  ∃ mapping,
    build_normalization_map raw_genres = Some mapping
    ∧ ∀ raw canonical,
        mapping !! raw = Some canonical →
        normalize_genre canonical = Some canonical
        ∧ (canonical ∈ raw_genres → mapping !! canonical = Some canonical).
Proof.
  intros Hascii.
  destruct (build_normalization_map_lookup raw_genres) as (m & Hm & Hlookup).
  exists m. split; [done |].
  intros raw canonical (Hin & Hn & Hne)%Hlookup.
  assert (normalize_genre canonical = Some canonical) as Hfix.
  { eapply normalize_genre_fixed; [|exact Hn].
    by apply (proj1 (Forall_forall _ _) Hascii). }
  split; [done |]. intros Hin'. by apply Hlookup.
Qed.

Lemma build_normalization_map_values_fixed_rock :
  ∃ mapping,
    build_normalization_map (U := ucd) [py "Rock"; py "rock"; py "Post Punk"]
    = Some mapping
    ∧ ∀ raw canonical,
        mapping !! raw = Some canonical →
        normalize_genre (U := ucd) canonical = Some canonical
        ∧ (canonical ∈ [py "Rock"; py "rock"; py "Post Punk"] →
           mapping !! canonical = Some canonical).
Proof.
  apply (@build_normalization_map_values_fixed ucd ucd_ascii_laws).
  repeat (constructor; [ascii_literal |]). constructor.
Defined.

(** ** The lookups of db/queries.py *)

Lemma elem_of_foldl_union {A} (f : A → list Z) (x : Z) (l : list A) :
  ∀ acc : gset Z,
    x ∈ foldl (λ results a, results ∪ list_to_set (f a)) acc l ↔
      x ∈ acc ∨ ∃ a, a ∈ l ∧ x ∈ f a.
Proof.
  induction l as [|a l IH]; intros acc; simpl.
  - split; [by left |]. intros [? | (a & Ha & _)]; [done |].
    by apply elem_of_nil in Ha.
  - rewrite IH, elem_of_union, elem_of_list_to_set. split.
    + intros [[? | ?] | (b & Hb & ?)]; [by left | |].
      * right. exists a. split; [by left | done].
      * right. exists b. split; [by right | done].
    + intros [? | (b & [-> | Hb]%elem_of_cons & ?)].
      * by left; left.
      * by left; right.
      * right. by exists b.
Qed.

(** X10: [get_tracks_by_genres] returns no identifier twice, and an
    identifier is in its result exactly when [get_tracks_by_genre] returns it
    for one of the genres asked for; for no genres it returns the empty
    list. *)
Theorem get_tracks_by_genres_union (db : Database) (genres : list str) :
  NoDup (get_tracks_by_genres db genres)
  ∧ ∀ x, x ∈ get_tracks_by_genres db genres ↔
         ∃ genre, genre ∈ genres ∧ x ∈ get_tracks_by_genre db genre.
Proof.
  unfold get_tracks_by_genres. destruct genres as [|g genres].
  { split; [constructor |]. intros x. split; [by intros ?%elem_of_nil |].
    intros (genre & ?%elem_of_nil & _). done. }
  cbn [truthy negb]. split; [apply NoDup_elements |].
  intros x. rewrite elem_of_elements, elem_of_foldl_union.
  split; [|by right]. by intros [?%not_elem_of_empty | ?].
Qed.

(** ** web/routes.py *)

Lemma strip_strip s : strip (strip s) = strip s.
Proof.
  destruct (strip_tight s) as [Hr [-> | Hb]]; [done |].
  unfold strip at 1. by rewrite lstrip_id.
Qed.

Lemma or_None_Some {A} (x y : list A) : or_None x = Some y → y = x ∧ x ≠ [].
Proof. unfold or_None. destruct x; [done |]. by intros [= <-]. Qed.

(** X11: every filter [_parse_filters] passes on is a real one: a title or
    similar_to is trimmed and not empty, a list is not empty, the limit is
    not 0, and a bpm_range is there exactly when both bounds were sent and
    neither is 0. *)
Theorem parse_filters_truthy (req : Request) :
  let filters := _parse_filters req in
  (∀ t, title filters = Some t → t ≠ [] ∧ strip t = t)
  ∧ (∀ t, similar_to filters = Some t → t ≠ [] ∧ strip t = t)
  ∧ (∀ l, genres filters = Some l → l ≠ [])
  ∧ (∀ l, genre_groups filters = Some l → l ≠ [])
  ∧ (∀ l, artists filters = Some l → l ≠ [])
  ∧ limit filters ≠ Some 0%Z
  ∧ (∀ lo hi, bpm_range filters = Some (lo, hi) ↔
       values_min_bpm req = Some lo ∧ values_max_bpm req = Some hi
       ∧ lo ≠ 0%Z ∧ hi ≠ 0%Z).
Proof.
  cbv zeta. unfold _parse_filters. cbn [title similar_to genres genre_groups
    artists limit bpm_range].
  split; [|split; [|split; [|split; [|split; [|split]]]]].
  - intros t [-> ?]%or_None_Some. split; [done | apply strip_strip].
  - intros t [-> ?]%or_None_Some. split; [done | apply strip_strip].
  - by intros l [-> ?]%or_None_Some.
  - by intros l [-> ?]%or_None_Some.
  - by intros l [-> ?]%or_None_Some.
  - destruct (values_limit req) as [n|]; [|done]. simpl.
    destruct (Z.eqb_spec n 0); [done |]. simpl. congruence.
  - intros lo hi.
    destruct (values_min_bpm req) as [a|], (values_max_bpm req) as [b|];
      simpl; rewrite ?andb_false_r;
      try (split; [done | by intros (? & ? & _)]).
    destruct (Z.eqb_spec a 0), (Z.eqb_spec b 0); simpl;
      (split; [intros [= <- <-] | intros ([= <-] & [= <-] & ? & ?)]);
      done.
Qed.

Section routes.
Variable random_shuffle : list Z → list Z.
Hypothesis random_shuffle_perm : ∀ l, random_shuffle l ≡ₚ l.

Lemma build_playlist_query_nothing_given db title genres genre_groups artists
    similar_to limit shuffle :
  given title = false → given genres = false →
  given genre_groups = false → given artists = false →
  given similar_to = false →
  build_playlist_query random_shuffle db title genres genre_groups None
    artists similar_to limit shuffle = [].
Proof.
  intros Ht Hg Hgg Ha Hs. unfold build_playlist_query, compose_filters.
  by rewrite Ht, Hg, Hgg, Ha, Hs.
Qed.

Lemma given_or_None_blank (s : str) : blank s → given (or_None (strip s)) = false.
Proof. intros Hs%strip_nil. by rewrite Hs. Qed.

(** X12: a request whose title and similar_to are blank, whose genre,
    genre-group and artist lists are empty and which lacks a non-zero
    min_bpm or max_bpm selects no track: both preview routes get the empty
    list, whatever the stored data and the limit. *)
Theorem preview_without_filters (db : Database) (req : Request) :
  blank (values_title req) → blank (values_similar_to req) →
  values_genres req = [] → values_genre_groups req = [] →
  values_artists req = [] →
  truthy_int (values_min_bpm req) && truthy_int (values_max_bpm req) = false →
  preview_count_ids random_shuffle db req = []
  ∧ preview_ids random_shuffle db req = [].
Proof.
  intros Ht Hs Hg Hgg Ha Hbpm.
  unfold preview_count_ids, preview_ids, _parse_filters.
  cbn [title similar_to genres genre_groups artists limit bpm_range].
  rewrite Hbpm, Hg, Hgg, Ha.
  split; apply build_playlist_query_nothing_given;
    auto using given_or_None_blank.
Qed.

(** X13: when a request carries a positive limit, neither preview route
    gets more identifiers than the limit. *)
Theorem preview_within_limit (db : Database) (req : Request) (n : Z) :
  values_limit req = Some n → (0 < n)%Z →
  (Z.of_nat (length (preview_count_ids random_shuffle db req)) ≤ n)%Z
  ∧ (Z.of_nat (length (preview_ids random_shuffle db req)) ≤ n)%Z.
Proof.
  intros Hn Hpos.
  assert (limit (_parse_filters req) = Some n) as Hlimit.
  { unfold _parse_filters. cbn [limit]. rewrite Hn. simpl.
    by destruct (Z.eqb_spec n 0); [lia |]. }
  unfold preview_count_ids, preview_ids. cbv zeta. rewrite Hlimit.
  split; rewrite build_playlist_query_limit; cbv zeta; simpl;
    destruct (Z.eqb_spec n 0); try lia; simpl; unfold slice_to;
    destruct (Z.leb_spec 0 n); try lia; rewrite length_take; lia.
Qed.

Lemma elem_of_build_playlist_query_unlimited db title genres genre_groups
    bpm_range artists similar_to shuffle x :
  x ∈ build_playlist_query random_shuffle db title genres genre_groups
        bpm_range artists similar_to None shuffle ↔
  requested_sets db title genres genre_groups bpm_range artists similar_to
    ≠ []
  ∧ Forall (λ s : gset Z, x ∈ s)
      (requested_sets db title genres genre_groups bpm_range artists
         similar_to).
Proof.
  by rewrite build_playlist_query_unlimited by done;
    rewrite elem_of_elements, elem_of_intersect_all.
Qed.

(** X14: every identifier [build_playlist_query] returns, with or without
    shuffle and limit, lies in the set of each requested dimension: in the
    title set, the genre pool, the bpm set and the artist pool, as far as
    they are asked for. *)
Theorem build_playlist_query_sound db title genres genre_groups bpm_range
    artists similar_to limit shuffle x :
  x ∈ build_playlist_query random_shuffle db title genres genre_groups
        bpm_range artists similar_to limit shuffle →
  Forall (λ s : gset Z, x ∈ s)
    (requested_sets db title genres genre_groups bpm_range artists similar_to).
Proof.
  rewrite build_playlist_query_limit. cbv zeta. intros Hx.
  apply (elem_of_build_playlist_query_unlimited db title genres genre_groups
           bpm_range artists similar_to shuffle x).
  destruct (given_int limit); [|done].
  unfold slice_to in Hx.
  destruct (0 <=? default 0 limit)%Z; by apply subseteq_take in Hx.
Qed.

(** X15: genres and genre groups are united before the other filters are
    applied: when both are given, the identifiers of the query are those of
    the query with the genres alone together with those of the query with
    the genre groups alone, the other filters being the same. *)
Theorem build_playlist_query_genre_union db title genres genre_groups
    bpm_range artists similar_to shuffle x :
  given genres = true → given genre_groups = true →
  x ∈ build_playlist_query random_shuffle db title genres genre_groups
        bpm_range artists similar_to None shuffle ↔
  x ∈ build_playlist_query random_shuffle db title genres None
        bpm_range artists similar_to None shuffle
  ∨ x ∈ build_playlist_query random_shuffle db title None genre_groups
        bpm_range artists similar_to None shuffle.
Proof.
  intros Hg Hgg. rewrite !elem_of_build_playlist_query_unlimited.
  unfold requested_sets, genre_pool, lookup_set. rewrite Hg, Hgg.
  cbn [given orb]. rewrite !Forall_app, !Forall_singleton.
  rewrite (right_id_L ∅ (∪)), (left_id_L ∅ (∪)), elem_of_union.
  split.
  - intros (_ & Ht & [Hx | Hx] & Hrest).
    + left. split; [by destruct (given title) |]. done.
    + right. split; [by destruct (given title) |]. done.
  - intros [(_ & Ht & Hx & Hrest) | (_ & Ht & Hx & Hrest)].
    + split; [by destruct (given title) |]. split; [done |]. split; [by left | done].
    + split; [by destruct (given title) |]. split; [done |]. split; [by right | done].
Qed.
End routes.

Lemma preview_without_filters_blank_request :
  preview_count_ids reverse db_all blank_request = []
  ∧ preview_ids reverse db_all blank_request = [].
Proof.
  apply (preview_without_filters reverse db_all blank_request);
    first [reflexivity | by repeat constructor].
Defined.

Lemma preview_within_limit_rock_request :
  (Z.of_nat (length (preview_count_ids reverse db_all rock_request)) ≤ 1)%Z
  ∧ (Z.of_nat (length (preview_ids reverse db_all rock_request)) ≤ 1)%Z.
Proof.
  apply (preview_within_limit reverse db_all rock_request 1);
    [reflexivity | lia].
Defined.

Lemma build_playlist_query_sound_rock :
  Forall (λ s : gset Z, 1%Z ∈ s)
    (requested_sets db_all None (Some [py "rock"]) None (Some (60, 200)%Z)
       None None).
Proof.
  apply (build_playlist_query_sound reverse reverse_Permutation db_all None
           (Some [py "rock"]) None (Some (60, 200)%Z) None None (Some 1%Z)
           true 1%Z).
  vm_compute. by left.
Defined.

Lemma build_playlist_query_genre_union_rock :
  1%Z ∈ build_playlist_query reverse db_all None (Some [py "jazz"])
          (Some [py "rock"]) None None None None false ↔
  1%Z ∈ build_playlist_query reverse db_all None (Some [py "jazz"]) None
          None None None None false
  ∨ 1%Z ∈ build_playlist_query reverse db_all None None (Some [py "rock"])
            None None None None false.
Proof.
  apply (build_playlist_query_genre_union reverse reverse_Permutation db_all
           None (Some [py "jazz"]) (Some [py "rock"]) None None None false
           1%Z); reflexivity.
Defined.

(** ** Counting the clusters *)

Lemma sum_list_with_indicator (o : option str) (ks : list str) :
  NoDup ks →
  (sum_list_with (λ k, if decide (o = Some k) then 1 else 0) ks ≤ 1)%nat.
Proof.
  induction 1 as [|k ks Hk Hks IH]; simpl; [lia |].
  destruct (decide (o = Some k)) as [-> | Hne]; [|exact IH].
  assert (sum_list_with (λ k0, if decide (Some k = Some k0) then 1 else 0) ks
          = 0)%nat as ->; [|lia].
  clear IH Hks. induction ks as [|k' ks IH]; [done |]. simpl.
  rewrite decide_False.
  - apply IH. intros ?. apply Hk. by right.
  - intros [= ->]. apply Hk. by left.
Qed.

Lemma sum_list_with_variants `{U : Unicode} (raw_genres ks : list str) :
  NoDup ks →
  (sum_list_with (λ k, length (variants_of k raw_genres)) ks
   ≤ length raw_genres)%nat.
Proof.
  intros Hks. induction raw_genres as [|r rest IH].
  { clear Hks. induction ks as [|k ks IHk]; [done | exact IHk]. }
  assert (sum_list_with (λ k, length (variants_of k (r :: rest))) ks
          = sum_list_with
              (λ k, if decide (normalize_genre r = Some k) then 1 else 0) ks
            + sum_list_with (λ k, length (variants_of k rest)) ks)%nat as ->.
  { clear. induction ks as [|k ks IHk]; [done |]. simpl.
    rewrite IHk, variants_of_cons.
    destruct (decide (normalize_genre r = Some k)); simpl; lia. }
  pose proof (sum_list_with_indicator (normalize_genre r) ks Hks).
  simpl. lia.
Qed.

Lemma find_duplicate_clusters_size `{U : Unicode} (raw_genres : list str) :
  ∃ clusters,
    find_duplicate_clusters raw_genres = Some clusters
    ∧ (sum_list_with (λ item, length item.2) clusters ≤ length raw_genres)%nat
    ∧ (2 * length clusters ≤ length raw_genres)%nat.
Proof.
  destruct (find_duplicate_clusters_elem raw_genres)
    as (clusters & Hc & _ & Hnd & Helem).
  exists clusters. split; [done |].
  pose proof (sum_list_with_variants raw_genres clusters.*1 Hnd) as Hsum.
  assert (Forall (λ item : str * list str,
                    item.2 = variants_of item.1 raw_genres
                    ∧ (2 ≤ length item.2)%nat) clusters) as Hall.
  { apply Forall_forall. intros [k vs] (_ & ? & ?)%Helem. done. }
  clear Hc Hnd Helem.
  assert (sum_list_with (λ item : str * list str, length item.2) clusters
          = sum_list_with (λ k, length (variants_of k raw_genres)) clusters.*1
          ∧ 2 * length clusters
            ≤ sum_list_with (λ item : str * list str, length item.2) clusters)%nat
    as [Heq Hle].
  { clear Hsum. induction Hall as [|[k vs] l [Hvs Hlen] _ [IH1 IH2]]; [done |].
    rewrite fmap_cons. cbn [sum_list_with length]. cbn [fst snd] in *.
    rewrite <- Hvs, <- IH1. split; lia. }
  lia.
Qed.

(** X16: the clusters of [find_duplicate_clusters] do not overlap: no
    canonical form heads two clusters, every string of a cluster is a raw
    genre whose canonical form is the cluster's key, and so a string found
    in two clusters is found in one and the same cluster. Taken together the
    clusters list at most as many strings as the input has, so there are at
    most half as many clusters as raw strings. *)
Theorem find_duplicate_clusters_count `{U : Unicode} (raw_genres : list str) :
  ∃ clusters,
    find_duplicate_clusters raw_genres = Some clusters
    ∧ NoDup clusters.*1
    ∧ (∀ canonical variants raw,
         (canonical, variants) ∈ clusters → raw ∈ variants →
         raw ∈ raw_genres ∧ normalize_genre raw = Some canonical)
    ∧ (∀ canonical1 variants1 canonical2 variants2 raw,
         (canonical1, variants1) ∈ clusters →
         (canonical2, variants2) ∈ clusters →
         raw ∈ variants1 → raw ∈ variants2 →
         canonical1 = canonical2 ∧ variants1 = variants2)
    ∧ (sum_list_with (λ item, length item.2) clusters ≤ length raw_genres)%nat
    ∧ (2 * length clusters ≤ length raw_genres)%nat.
Proof.
  destruct (find_duplicate_clusters_elem raw_genres)
    as (clusters & Hc & _ & Hnd & Helem).
  destruct (find_duplicate_clusters_size raw_genres)
    as (clusters' & Hc' & Hsum & Hcount).
  rewrite Hc in Hc'. injection Hc' as <-.
  exists clusters. split; [exact Hc |]. split; [exact Hnd |].
  assert (∀ canonical variants raw,
            (canonical, variants) ∈ clusters → raw ∈ variants →
            raw ∈ raw_genres ∧ normalize_genre raw = Some canonical) as Hin.
  { intros canonical variants raw (_ & -> & _)%Helem Hraw.
    unfold variants_of in Hraw.
    apply list_elem_of_filter in Hraw as [Hn Hraw]. by split. }
  split; [exact Hin |]. split; [|by split].
  intros c1 vs1 c2 vs2 raw H1 H2 Hr1 Hr2.
  destruct (Hin _ _ _ H1 Hr1) as [_ Hn1].
  destruct (Hin _ _ _ H2 Hr2) as [_ Hn2].
  assert (c1 = c2) as <- by congruence. split; [reflexivity |].
  apply Helem in H1 as (_ & -> & _). by apply Helem in H2 as (_ & -> & _).
Qed.

(** ** scripts/normalize_genres.py: the dry run *)

Lemma count_aliases_counts `{U : Unicode} (items : list (str * str)) :
  ∀ stats,
    let stats' := count_aliases stats items in
    total_genres stats' = total_genres stats
    ∧ canonical_new stats' = canonical_new stats
    ∧ clusters_found stats' = clusters_found stats
    ∧ (aliases_created stats' + identity_mappings stats'
       = aliases_created stats + identity_mappings stats + length items)%nat.
Proof.
  unfold count_aliases.
  induction items as [|item items IH]; intros stats; cbn [foldl length].
  { repeat split; lia. }
  cbv zeta in IH.
  destruct (decide (lower item.1 ≠ item.2));
    match goal with |- context [foldl _ ?st items] =>
      destruct (IH st) as (-> & -> & -> & ->) end;
    cbn [total_genres canonical_new clusters_found aliases_created
         identity_mappings]; repeat split; lia.
Qed.

Lemma size_list_to_set_le (l : list str) :
  (size (list_to_set l : gset str) ≤ length l)%nat.
Proof.
  apply submseteq_length, NoDup_submseteq; [apply NoDup_elements |].
  intros x. by rewrite elem_of_elements, elem_of_list_to_set.
Qed.

Lemma build_normalization_map_size `{U : Unicode} raw_genres mapping :
  build_normalization_map raw_genres = Some mapping →
  (size mapping ≤ length raw_genres)%nat.
Proof.
  intros Hm.
  destruct (build_normalization_map_lookup raw_genres) as (m & Hm' & Hlookup).
  rewrite Hm in Hm'. injection Hm' as <-.
  rewrite <- length_map_to_list, <- (length_fmap fst).
  apply submseteq_length, NoDup_submseteq; [apply NoDup_fst_map_to_list |].
  intros raw [[raw' c] [-> Hin]]%list_elem_of_fmap.
  apply elem_of_map_to_list in Hin. by apply Hlookup in Hin as [? _].
Qed.

(** X17: a dry run of [run_normalization] never raises, and its counters
    fit together: every entry of the normalization map is counted once,
    either as an alias or as an identity mapping, so the two together do not
    exceed the number of genres; there are no more new canonical genres than
    entries; and there are at most half as many clusters as genres. *)
Theorem run_normalization_dry_run_counts `{U : Unicode}
    (genre_rows : list (Z * str)) :
  ∃ stats,
    run_normalization_dry_run genre_rows = Some stats
    ∧ total_genres stats = length genre_rows
    ∧ (aliases_created stats + identity_mappings stats ≤ total_genres stats)%nat
    ∧ (canonical_new stats
       ≤ aliases_created stats + identity_mappings stats)%nat
    ∧ (2 * clusters_found stats ≤ total_genres stats)%nat.
Proof.
  unfold run_normalization_dry_run.
  destruct genre_rows as [|row rows]; cbn [truthy negb].
  { eexists. split; [done |]. simpl. repeat split; lia. }
  set (genre_rows := row :: rows). set (raw_genres := _ <$> genre_rows).
  destruct (build_normalization_map_lookup raw_genres) as (m & Hm & _).
  destruct (find_duplicate_clusters_size raw_genres)
    as (clusters & Hc & _ & Hcount).
  rewrite Hm, Hc. cbn [mbind option_bind]. eexists. split; [done |].
  match goal with |- context [count_aliases ?st ?items] =>
    destruct (count_aliases_counts items st) as (-> & -> & -> & Hsum) end.
  cbn [total_genres canonical_new clusters_found aliases_created
       identity_mappings] in *.
  pose proof (build_normalization_map_size _ _ Hm) as Hsize.
  rewrite length_map_to_list in Hsum.
  assert (length raw_genres = length genre_rows) as Hlen
    by apply length_fmap.
  split; [done |]. split; [lia |]. split; [|lia].
  rewrite Hsum. simpl.
  etransitivity;
    [apply subseteq_size; intros x [_ Hx]%elem_of_filter; exact Hx |].
  etransitivity; [apply size_list_to_set_le |].
  by rewrite length_fmap, length_map_to_list.
Qed.

Lemma alias_or_scan_nil : alias_or_scan [] = [].
Proof. vm_compute. reflexivity. Qed.

Lemma alias_or_scan_fixed `{U : Unicode} {L : AsciiLaws U} (ws : list str) :
  Forall word ws → Forall (Forall lowered) ws →
  normalize_genre (alias_or_scan ws) = Some (alias_or_scan ws).
Proof.
  intros Hws Hlow. destruct ws as [|w ws].
  { rewrite alias_or_scan_nil. by rewrite normalize_genre_canonicalize. }
  unfold alias_or_scan.
  destruct (ALIAS_MAP !! join (py " ") (w :: ws)) as [v|] eqn:Hk1;
    [by eapply alias_value_fixed |].
  cbv zeta.
  destruct (ALIAS_MAP !! join (py " ") (hyphen_scan (w :: ws))) as [v|] eqn:Hk2;
    [by eapply alias_value_fixed |].
  assert (hyphen_scan (w :: ws) ≠ []) as Hne
    by (intros ?%hyphen_scan_nil; discriminate).
  destruct (canonicalize_tokens (hyphen_scan (w :: ws))) as [Hs' Hc'];
    [done | by apply hyphen_scan_word | by apply hyphen_scan_lowered |].
  rewrite (normalize_genre_tokens _ (hyphen_scan (w :: ws)));
    [| done | done | by apply hyphen_scan_word].
  unfold alias_or_scan. by rewrite hyphen_scan_idem, Hk2.
Qed.

Lemma canonical_text_tokens (t : str) :
  strip t = t → re_sub_ws false t = t → t = join (py " ") (split t).
Proof.
  intros Ht Hsep. destruct t as [|c t]; [done |].
  assert (rstrip (c :: t) = c :: t) as Hr
    by (rewrite <- Ht; apply strip_tight).
  assert (at_break (c :: t) = false) as Hb.
  { destruct (strip_tight (c :: t)) as [_ H]. rewrite Ht in H.
    by destruct H. }
  by rewrite <- (proj2 (re_sub_ws_join _ Hr) Hb).
Qed.

(** X18: [normalize_genre] is idempotent on every raw string whose text
    after steps 1 to 3 is trimmed and made of lowercase ASCII characters,
    whatever the raw string itself contains: the result is canonical, and
    normalizing it again returns it. *)
Theorem normalize_genre_idempotent_canonical `{U : Unicode} {L : AsciiLaws U}
    (s : str) :
  strip (canonicalize s) = canonicalize s →
  Forall lowered (canonicalize s) →
  ∃ canonical,
    normalize_genre s = Some canonical
    ∧ normalize_genre canonical = Some canonical.
Proof.
  intros Ht Hlow. destruct (decide (strip s = [])) as [Hb | Hb].
  { exists []. rewrite !normalize_genre_canonicalize, Hb. done. }
  assert (canonicalize s = join (py " ") (split (canonicalize s))) as Hj.
  { apply canonical_text_tokens; [exact Ht |].
    unfold canonicalize, _normalize_separators. apply re_sub_ws_twice. }
  exists (alias_or_scan (split (canonicalize s))). split.
  - apply normalize_genre_tokens; [exact Hb | exact Hj | apply split_word].
  - apply alias_or_scan_fixed; [apply split_word | by apply Forall_split].
Qed.

Lemma normalize_genre_idempotent_canonical_nu_metal :
  ∃ canonical,
    normalize_genre (U := ucd) [78; 220; 32; 77; 101; 116; 97; 108]
    = Some canonical
    ∧ normalize_genre (U := ucd) canonical = Some canonical.
Proof.
  apply (@normalize_genre_idempotent_canonical ucd ucd_ascii_laws).
  - vm_compute. reflexivity.
  - apply lowered_literal. vm_compute. reflexivity.
Defined.
